(** * scopehal: PipelineCacheManager, VulkanFFTPlan and ChannelRenderer

    A shallow embedding of [PipelineCacheManager.cpp] and [VulkanFFTPlan.h],
    and of the drawing code of [ChannelRenderer.cpp].

    Both classes are thin layers over collaborators that live elsewhere: the
    logging functions, the Vulkan compute device, the vkFFT plan builder and
    the host's directory services.  Their observable effects are gathered in
    a [World] record; the collaborators whose bodies are not part of these
    files are the fields of a [Host] record, over which every general
    theorem is quantified.

    Conventions.
    - [std::map<string, T>] is a [gmap string T].
    - [shared_ptr<T>] is [option T], with [None] the null pointer.  A blob
      ([vector<uint32_t>]) is immutable once stored and is identified with
      its contents; a [vk::raii::PipelineCache] is identified with the
      serial number the device gave it when it was created.
    - A call ends in one of three ways ([outcome]): it returns, it throws,
      or it dereferences a null pointer, after which nothing is defined.
    - Creation of device objects (pipeline caches, fences) is taken to
      succeed; out-of-memory and device loss are outside the model. *)

From stdpp Require Import gmap strings list fin_maps.
From Stdlib Require Import NArith ZArith Lia.
From Stdlib Require QArith.

Local Open Scope string_scope.
Local Open Scope N_scope.

(** ** Outcomes of a call *)

Inductive exn : Type :=
| runtime_error (what : string).

Inductive outcome (A : Type) : Type :=
| Returns (a : A)
| Throws (e : exn)
| Undefined.
Arguments Returns {A} a.
Arguments Throws {A} e.
Arguments Undefined {A}.

Definition returned {A} (o : outcome A) : bool :=
  match o with Returns _ => true | _ => false end.

(** ** Logging *)

Inductive LogLevel : Type := LogLevelError | LogLevelNotice | LogLevelTrace.

Inductive LogArg : Type :=
| ArgStr (s : string)     (* %s *)
| ArgNum (n : Z).         (* %d, %zu *)

(** A log call is recorded with its format string and its arguments, in
    the order in which the calls were made. *)
Record LogEntry : Type := mkLog {
  log_level : LogLevel;
  log_format : string;
  log_args : list LogArg
}.

(** ** The world outside the two classes *)

Abbreviation blob := (list N).                 (* vector<uint32_t> *)
Abbreviation shared_ptr := option.
Abbreviation nullptr := None.

(** [vk::raii::PipelineCache], created empty on [g_vkComputeDevice]. *)
Record PipelineCache : Type := mkPipelineCache { pc_serial : N }.

(** [vk::raii::Fence] *)
Record Fence : Type := mkFence { fence_serial : N }.

Record World : Type := mkWorld {
  w_log : list LogEntry;                       (* oldest entry first *)
  w_pipelineCaches : N;                        (* pipeline caches created so far *)
  w_fences : N;                                (* fences created so far *)
  w_dirs : gset string;                        (* directories on disk *)
  w_files : gmap string (list N);              (* files on disk, as bytes *)
  w_lastError : N                              (* Win32 GetLastError() *)
}.

Definition Log (lvl : LogLevel) (fmt : string) (args : list LogArg) (w : World) : World :=
  mkWorld (w_log w ++ [mkLog lvl fmt args]) (w_pipelineCaches w) (w_fences w)
          (w_dirs w) (w_files w) (w_lastError w).

Definition LogError := Log LogLevelError.
Definition LogNotice := Log LogLevelNotice.
Definition LogTrace := Log LogLevelTrace.

(** [make_shared<vk::raii::PipelineCache>] on the compute device with an
    empty create-info: a new object, distinct from every one made before. *)
Definition make_shared_PipelineCache (w : World) : PipelineCache * World :=
  (mkPipelineCache (w_pipelineCaches w),
   mkWorld (w_log w) (N.succ (w_pipelineCaches w)) (w_fences w)
           (w_dirs w) (w_files w) (w_lastError w)).

(** A [vk::raii::Fence] made on the compute device with a default create-info. *)
Definition make_Fence (w : World) : Fence * World :=
  (mkFence (w_fences w),
   mkWorld (w_log w) (w_pipelineCaches w) (N.succ (w_fences w))
           (w_dirs w) (w_files w) (w_lastError w)).

(** ** Collaborators whose bodies are elsewhere *)

Inductive Platform : Type := Win32 | Posix.    (* #ifdef _WIN32 *)

Definition ERROR_ALREADY_EXISTS : N := 183.
Definition VKFFT_SUCCESS : Z := 0%Z.

(** Raw Vulkan handles handed to vkFFT. *)
Record VkContext : Type := mkVkContext {
  g_vkfftPhysicalDevice : N;
  g_vkComputeDevice : N;
  g_vkFFTCommandPool : N;
  g_vkFFTQueue : N
}.

(** A pointer to a local variable of a function. *)
Inductive local_ptr (A : Type) : Type :=
| points_to (value : A)                        (* the variable is alive and holds [value] *)
| dangling.                                    (* the function has returned *)
Arguments points_to {A} value.
Arguments dangling {A}.

Record VkFFTConfiguration : Type := mkVkFFTConfiguration {
  FFTdim : N;
  size0 : N;
  size1 : N;
  size2 : N;
  physicalDevice : N;
  device : N;
  queue : N;
  commandPool : N;
  fence : N;
  isCompilerInitialized : N;
  bufferSize : local_ptr N                     (* uint64_t* *)
}.

(** The built execution graph; [app_built = false] is the zeroed structure. *)
Record VkFFTApplication : Type := mkVkFFTApplication {
  app_built : bool;
  app_configuration : option VkFFTConfiguration
}.

Definition zeroed_app : VkFFTApplication := mkVkFFTApplication false None.

Record Host : Type := mkHost {
  platform : Platform;
  (* Win32: S_OK with the folder, or a failure code *)
  SHGetKnownFolderPath : World -> option string * World;
  (* Win32: the combined path, or NULL *)
  PathCombineW : string -> string -> option string;
  (* Win32: nonzero on success; on failure the last-error code is set *)
  CreateDirectoryW : string -> World -> bool * World;
  (* scopehal helpers; like any function of the library they may throw *)
  NarrowPath : string -> World -> outcome string * World;
  CreateDirectory : string -> World -> outcome unit * World;
  ExpandPath : string -> World -> outcome string * World;
  (* vkFFT *)
  vk : VkContext;
  initializeVkFFT : VkFFTApplication -> VkFFTConfiguration -> World ->
                    (Z * VkFFTApplication) * World;
  deleteVkFFT : VkFFTApplication -> World -> VkFFTApplication * World
}.

(** ** PipelineCacheManager *)

Module PipelineCacheManager.

Record t : Type := mk {
  m_cacheRootDir : string;
  m_vkCache : gmap string (shared_ptr PipelineCache);
  m_rawDataCache : gmap string (shared_ptr blob)
}.

(** Members as their default constructors leave them. *)
Definition fresh : t := mk "" ∅ ∅.

Definition set_cacheRootDir (d : string) (this : t) : t :=
  mk d (m_vkCache this) (m_rawDataCache this).

(** What a method hands back: how it ended, the object, and the world. *)
Record ret (A : Type) : Type := mkRet {
  result : outcome A;
  this' : t;
  world' : World
}.
Arguments mkRet {A} _ _ _.
Arguments result {A} _.
Arguments this' {A} _.
Arguments world' {A} _.

(** A call made from a method that has no [try]: when the call does not
    return, neither does the method. *)
Definition calling {A} (called : outcome A * World) (this : t)
    (then_ : A -> World -> ret unit) : ret unit :=
  match called with
  | (Returns a, w) => then_ a w
  | (Throws e, w) => mkRet (Throws e) this w
  | (Undefined, w) => mkRet Undefined this w
  end.

Section Methods.
Variable host : Host.

Definition FindPath_Win32 (this : t) (w : World) : ret unit :=
  match SHGetKnownFolderPath host w with
  | (None, w1) => mkRet (Throws (runtime_error "failed to resolve %appdata%")) this w1
  | (Some stem, w1) =>
    match PathCombineW host stem "glscopeclient" with
    | None => mkRet (Throws (runtime_error "failed to build directory path")) this w1
    | Some directory =>
      (* Ensure the directory exists *)
      let '(created, w2) := CreateDirectoryW host directory w1 in
      calling (NarrowPath host directory w2) this (fun narrow w3 =>
        let this1 := set_cacheRootDir narrow this in
        if negb created && negb (w_lastError w3 =? ERROR_ALREADY_EXISTS)
        then mkRet (Throws (runtime_error "failed to create preferences directory"))
                   this1 w3
        else mkRet (Returns tt) this1
                   (LogNotice "Cache root directory is %s\n" [ArgStr narrow] w3))
    end
  end.

Definition FindPath_Posix (this : t) (w : World) : ret unit :=
  (* Ensure all directories in path exist *)
  calling (CreateDirectory host "~/.cache" w) this (fun _ w1 =>
  calling (CreateDirectory host "~/.cache/glscopeclient" w1) this (fun _ w2 =>
  calling (ExpandPath host "~/.cache/glscopeclient" w2) this (fun dir w3 =>
    mkRet (Returns tt) (set_cacheRootDir dir this)
          (LogNotice "Cache root directory is %s\n" [ArgStr dir] w3)))).

Definition FindPath (this : t) (w : World) : ret unit :=
  match platform host with
  | Win32 => FindPath_Win32 this w
  | Posix => FindPath_Posix this w
  end.

(** The constructor: a thrown exception leaves no object behind. *)
Definition construct (w : World) : outcome t * World :=
  let r := FindPath fresh w in
  match result r with
  | Returns _ => (Returns (this' r), world' r)
  | Throws e => (Throws e, world' r)
  | Undefined => (Undefined, world' r)
  end.

End Methods.

(** Removes all content from the cache *)
Definition Clear (this : t) (w : World) : ret unit :=
  mkRet (Returns tt) (mk (m_cacheRootDir this) ∅ ∅) w.

(** Look up a blob which may or may not be in the cache *)
Definition LookupRaw (key : string) (this : t) (w : World) : ret (shared_ptr blob) :=
  match m_rawDataCache this !! key with
  | Some v => mkRet (Returns v) this (LogTrace "Hit for raw %s\n" [ArgStr key] w)
  | None => mkRet (Returns nullptr) this (LogTrace "Miss for raw %s\n" [ArgStr key] w)
  end.

(** Store a raw blob to the cache.  The word count in the log message is
    read through [value], whatever [value] is. *)
Definition StoreRaw (key : string) (value : shared_ptr blob) (this : t) (w : World)
  : ret unit :=
  let this1 := mk (m_cacheRootDir this) (m_vkCache this)
                  (<[key := value]> (m_rawDataCache this)) in
  match value with
  | Some words =>
    mkRet (Returns tt) this1
          (LogTrace "Store raw: %s (%zu words)\n"
                    [ArgStr key; ArgNum (Z.of_nat (length words))] w)
  | None => mkRet Undefined this1 w
  end.

(** Returns a Vulkan pipeline cache object for the given path.
    If not found, a new cache object is created and returned. *)
Definition Lookup (key : string) (this : t) (w : World)
  : ret (shared_ptr PipelineCache) :=
  match m_vkCache this !! key with
  | Some p =>
    (* Already in the cache? Return that copy *)
    mkRet (Returns p) this (LogTrace "Hit for pipeline %s\n" [ArgStr key] w)
  | None =>
    (* Nope, make a new empty cache object and return it *)
    let w1 := LogTrace "Miss for pipeline %s\n" [ArgStr key] w in
    let '(obj, w2) := make_shared_PipelineCache w1 in
    let ret := Some obj in
    mkRet (Returns ret)
          (mk (m_cacheRootDir this) (<[key := ret]> (m_vkCache this)) (m_rawDataCache this))
          w2
  end.

(** Loads cache content from disk *)
Definition LoadFromDisk (this : t) (w : World) : ret unit :=
  mkRet (Returns tt) this w.

(** Writes cache content out to disk *)
Definition SaveToDisk (this : t) (w : World) : ret unit :=
  let rootDir := "" in
  mkRet (Returns tt) this w.

(** Destroys the cache and writes it out to disk *)
Definition destruct_ (this : t) (w : World) : ret unit :=
  let r := SaveToDisk this w in
  Clear (this' r) (world' r).

End PipelineCacheManager.

(** ** Sequences of calls on one cache, made one after the other *)

Module Calls.
Import PipelineCacheManager.

Inductive call : Type :=
| CallClear
| CallLookupRaw (key : string)
| CallStoreRaw (key : string) (value : shared_ptr blob)
| CallLookup (key : string)
| CallLoadFromDisk
| CallSaveToDisk.

Inductive reply : Type :=
| ReplyVoid
| ReplyBlob (p : shared_ptr blob)
| ReplyPipeline (p : shared_ptr PipelineCache).

Definition reply_with {A} (f : A -> reply) (r : ret A) : ret reply :=
  mkRet (match result r with
         | Returns a => Returns (f a)
         | Throws e => Throws e
         | Undefined => Undefined
         end) (this' r) (world' r).

Definition exec (c : call) (this : t) (w : World) : ret reply :=
  match c with
  | CallClear => reply_with (fun _ => ReplyVoid) (Clear this w)
  | CallLookupRaw key => reply_with ReplyBlob (LookupRaw key this w)
  | CallStoreRaw key value => reply_with (fun _ => ReplyVoid) (StoreRaw key value this w)
  | CallLookup key => reply_with ReplyPipeline (Lookup key this w)
  | CallLoadFromDisk => reply_with (fun _ => ReplyVoid) (LoadFromDisk this w)
  | CallSaveToDisk => reply_with (fun _ => ReplyVoid) (SaveToDisk this w)
  end.

(** Runs the calls in order and stops at the first one that does not return. *)
Fixpoint run (cs : list call) (this : t) (w : World) : ret unit :=
  match cs with
  | [] => mkRet (Returns tt) this w
  | c :: cs' =>
    let r := exec c this w in
    match result r with
    | Returns _ => run cs' (this' r) (world' r)
    | Throws e => mkRet (Throws e) (this' r) (world' r)
    | Undefined => mkRet Undefined (this' r) (world' r)
    end
  end.

Definition is_clear (c : call) : bool :=
  match c with CallClear => true | _ => false end.

(** Calls after which a blob stored under [k] need no longer be there. *)
Definition overwrites (k : string) (c : call) : bool :=
  match c with
  | CallClear => true
  | CallStoreRaw key _ => bool_decide (key = k)
  | _ => false
  end.

(** Calls whose arguments may be dereferenced: every call but a [StoreRaw]
    of the null pointer. *)
Definition has_value (c : call) : bool :=
  match c with
  | CallStoreRaw _ None => false
  | _ => true
  end.

Definition is_lookup_of (k : string) (c : call) : bool :=
  match c with
  | CallLookup key => bool_decide (key = k)
  | _ => false
  end.

(** The number of pipeline-cache objects created on the device by the
    [Lookup(k)] calls of a run. *)
Fixpoint created_for (k : string) (cs : list call) (this : t) (w : World) : N :=
  match cs with
  | [] => 0
  | c :: cs' =>
    let r := exec c this w in
    (if is_lookup_of k c then w_pipelineCaches (world' r) - w_pipelineCaches w else 0)
    + match result r with
      | Returns _ => created_for k cs' (this' r) (world' r)
      | _ => 0
      end
  end.

End Calls.

(** Every pipeline cache registered in the manager was created by the
    device before now. *)
Definition consistent (this : PipelineCacheManager.t) (w : World) : Prop :=
  ∀ k obj, PipelineCacheManager.m_vkCache this !! k = Some (Some obj) →
           pc_serial obj < w_pipelineCaches w.

(** ** Two threads in [Lookup] at once

    [Lookup] takes [m_mutex] with a [lock_guard] on entry and keeps it until
    it returns.  Each thread runs the body of [Lookup(key)] one statement at
    a time; a scheduler picks which thread moves next.  A thread that asks
    for the mutex while the other holds it does not move. *)

Module Race.
Import PipelineCacheManager.

Inductive tid : Type := T1 | T2.

(** Where a thread is inside [Lookup]. *)
Inductive pc : Type :=
| Entry                                     (* about to construct the lock_guard *)
| Locked                                    (* holds the mutex; about to test find(key) *)
| Missed                                    (* miss logged; about to make the new object *)
| Made (ret : shared_ptr PipelineCache)     (* about to assign m_vkCache[key] = ret *)
| Leaving (ret : shared_ptr PipelineCache)  (* return value fixed; lock_guard still alive *)
| Done (ret : shared_ptr PipelineCache).    (* returned to the caller *)

Record config : Type := mkConfig {
  mgr : t;
  world : World;
  m_mutex : option tid;                     (* the thread that holds it, if any *)
  pc1 : pc;
  pc2 : pc
}.

Definition pc_of (i : tid) (c : config) : pc :=
  match i with T1 => pc1 c | T2 => pc2 c end.

Definition at_pc (i : tid) (p : pc) (m : t) (w : World) (mu : option tid) (c : config)
  : config :=
  match i with
  | T1 => mkConfig m w mu p (pc2 c)
  | T2 => mkConfig m w mu (pc1 c) p
  end.

(** One statement of thread [i]; [None] when the thread cannot move. *)
Definition step (key : string) (i : tid) (c : config) : option config :=
  match pc_of i c with
  | Entry =>
    match m_mutex c with
    | None => Some (at_pc i Locked (mgr c) (world c) (Some i) c)
    | Some _ => None
    end
  | Locked =>
    match m_vkCache (mgr c) !! key with
    | Some p =>
      Some (at_pc i (Leaving p) (mgr c)
                  (LogTrace "Hit for pipeline %s\n" [ArgStr key] (world c)) (m_mutex c) c)
    | None =>
      Some (at_pc i Missed (mgr c)
                  (LogTrace "Miss for pipeline %s\n" [ArgStr key] (world c)) (m_mutex c) c)
    end
  | Missed =>
    let '(obj, w1) := make_shared_PipelineCache (world c) in
    Some (at_pc i (Made (Some obj)) (mgr c) w1 (m_mutex c) c)
  | Made ret =>
    Some (at_pc i (Leaving ret)
                (mk (m_cacheRootDir (mgr c)) (<[key := ret]> (m_vkCache (mgr c)))
                    (m_rawDataCache (mgr c)))
                (world c) (m_mutex c) c)
  | Leaving ret => Some (at_pc i (Done ret) (mgr c) (world c) None c)
  | Done _ => None
  end.

(** Follows a schedule; a thread picked while it cannot move is skipped. *)
Fixpoint run (key : string) (sched : list tid) (c : config) : config :=
  match sched with
  | [] => c
  | i :: sched' =>
    match step key i c with
    | Some c' => run key sched' c'
    | None => run key sched' c
    end
  end.

(** Both threads are about to call [Lookup]; nobody holds the mutex. *)
Definition start (this : t) (w : World) : config :=
  mkConfig this w None Entry Entry.

Definition finished (c : config) : bool :=
  match pc1 c, pc2 c with
  | Done _, Done _ => true
  | _, _ => false
  end.

(** Statements a thread has left, at most. *)
Definition remaining (p : pc) : nat :=
  match p with
  | Entry => 5
  | Locked => 4
  | Missed => 3
  | Made _ => 2
  | Leaving _ => 1
  | Done _ => 0
  end.

Definition in_critical_section (p : pc) : bool :=
  match p with
  | Locked | Missed | Made _ | Leaving _ => true
  | Entry | Done _ => false
  end.

Definition mutex_agrees (mu : option tid) (p1 p2 : pc) : Prop :=
  match in_critical_section p1, in_critical_section p2 with
  | true, false => mu = Some T1
  | false, true => mu = Some T2
  | false, false => mu = None
  | true, true => False
  end.

(** What a thread at [p] knows about the shared state, when [n0] pipeline
    caches existed at the start. *)
Definition thread_agrees (key : string) (n0 : N) (c : config) (p : pc) : Prop :=
  match p with
  | Entry | Locked => True
  | Missed =>
    m_vkCache (mgr c) !! key = None ∧ w_pipelineCaches (world c) = n0
  | Made ret =>
    m_vkCache (mgr c) !! key = None ∧ w_pipelineCaches (world c) = n0 + 1
    ∧ ret = Some (mkPipelineCache n0)
  | Leaving ret | Done ret =>
    m_vkCache (mgr c) !! key = Some ret
  end.

Definition is_made (p : pc) : bool :=
  match p with Made _ => true | _ => false end.

Definition invariant (key : string) (n0 : N) (c : config) : Prop :=
  mutex_agrees (m_mutex c) (pc1 c) (pc2 c)
  ∧ thread_agrees key n0 c (pc1 c)
  ∧ thread_agrees key n0 c (pc2 c)
  ∧ ((m_vkCache (mgr c) !! key = None
      ∧ (is_made (pc1 c) || is_made (pc2 c) = false → w_pipelineCaches (world c) = n0))
     ∨ (m_vkCache (mgr c) !! key = Some (Some (mkPipelineCache n0))
        ∧ w_pipelineCaches (world c) = n0 + 1)).

End Race.

(** ** VulkanFFTPlan *)

Module VulkanFFTPlan.

Record t : Type := mk {
  m_app : VkFFTApplication;
  m_config : VkFFTConfiguration;
  m_size : N;                                  (* size_t *)
  m_physicalDevice : N;
  m_device : N;
  m_pool : N;
  m_queue : N;
  m_fence : Fence;
  m_rawfence : N
}.

Section Methods.
Variable host : Host.

(** The configuration the constructor fills in, starting from all zeroes:
    one dimension of [size] elements over a single buffer of full size.
    [bufferSize] is set to the address of the constructor's local [bsize],
    which holds [size]. *)
Definition configure (size : N) (rawfence : N) : VkFFTConfiguration :=
  mkVkFFTConfiguration
    1 size 1 1
    (g_vkfftPhysicalDevice (vk host)) (g_vkComputeDevice (vk host))
    (g_vkFFTQueue (vk host)) (g_vkFFTCommandPool (vk host))
    rawfence 1 (points_to size).

(** The same configuration once the constructor has returned and [bsize]
    is gone. *)
Definition after_return (config : VkFFTConfiguration) : VkFFTConfiguration :=
  mkVkFFTConfiguration
    (FFTdim config) (size0 config) (size1 config) (size2 config)
    (physicalDevice config) (device config) (queue config) (commandPool config)
    (fence config) (isCompilerInitialized config) dangling.

(** The constructor.  [g_vkFFTMutex] is held from after the two memsets to
    the end; a single caller never waits for it. *)
Definition construct (size : N) (w : World) : outcome t * World :=
  let '(fence, w1) := make_Fence w in
  let rawfence := fence_serial fence in
  let config := configure size rawfence in
  let '((err, app), w2) := initializeVkFFT host zeroed_app config w1 in
  let w3 := if bool_decide (VKFFT_SUCCESS ≠ err)
            then LogError "Failed to initialize vkFFT (code %d)\n" [ArgNum err] w2
            else w2 in
  (Returns (mk app (after_return config) size
               (g_vkfftPhysicalDevice (vk host)) (g_vkComputeDevice (vk host))
               (g_vkFFTCommandPool (vk host)) (g_vkFFTQueue (vk host))
               fence rawfence),
   w3).

(** The status the plan builder reports to the constructor. *)
Definition builder_status (size : N) (w : World) : Z :=
  let '(fence, w1) := make_Fence w in
  fst (fst (initializeVkFFT host zeroed_app (configure size (fence_serial fence)) w1)).

Definition destruct_ (this : t) (w : World) : World :=
  snd (deleteVkFFT host (m_app this) w).

End Methods.

(** [size() const] *)
Definition size (this : t) (w : World) : outcome N * t * World :=
  (Returns (m_size this), this, w).

End VulkanFFTPlan.

(** ** Example hosts *)

Module Examples.

Definition quiet : World := mkWorld [] 0 0 ∅ ∅ 0.

Definition mkdir (path : string) (w : World) : World :=
  mkWorld (w_log w) (w_pipelineCaches w) (w_fences w)
          ({[path]} ∪ w_dirs w) (w_files w) (w_lastError w).


Definition context : VkContext := mkVkContext 1 2 3 4.

(** A builder that accepts every configuration. *)
Definition builder_ok (app : VkFFTApplication) (cfg : VkFFTConfiguration) (w : World)
  : (Z * VkFFTApplication) * World :=
  ((VKFFT_SUCCESS, mkVkFFTApplication true (Some cfg)), w).

(** A builder that is out of memory (VKFFT_ERROR_MALLOC_FAILED = 1). *)
Definition builder_no_memory (app : VkFFTApplication) (cfg : VkFFTConfiguration) (w : World)
  : (Z * VkFFTApplication) * World :=
  ((1%Z, app), w).

Definition release (app : VkFFTApplication) (w : World) : VkFFTApplication * World :=
  (zeroed_app, w).

(** A Unix host with a home directory that can be written. *)
Definition unix : Host :=
  mkHost Posix
         (fun w => (None, w)) (fun _ _ => None) (fun _ w => (false, w))
         (fun p w => (Returns p, w))
         (fun p w => (Returns tt, mkdir p w))
         (fun _ w => (Returns "/home/user/.cache/glscopeclient", w))
         context builder_ok release.

(** A Unix host on which no directory can be made: [CreateDirectory] has
    no effect. *)
Definition unix_readonly : Host :=
  mkHost Posix
         (fun w => (None, w)) (fun _ _ => None) (fun _ w => (false, w))
         (fun p w => (Returns p, w))
         (fun _ w => (Returns tt, w))
         (fun _ w => (Returns "/home/user/.cache/glscopeclient", w))
         context builder_no_memory release.


(** A Windows host on which the roaming application-data folder resolves
    and the directory does not exist yet. *)
Definition windows : Host :=
  mkHost Win32
         (fun w => (Some "C:/Users/user/AppData/Roaming", w))
         (fun a b => Some (a ++ "/" ++ b))
         (fun p w => (true, mkdir p w)) (fun p w => (Returns p, w))
         (fun _ w => (Returns tt, w)) (fun p w => (Returns p, w))
         context builder_ok release.



(** A cache that has been in use: one pipeline cache and one blob. *)
Definition warm : PipelineCacheManager.t :=
  PipelineCacheManager.mk "/home/user/.cache/glscopeclient"
    {["X" := Some (mkPipelineCache 0)]}
    {["k1" := Some [1; 2; 3]]}.

Definition warm_world : World := mkWorld [] 1 0 ∅ ∅ 0.

Definition traffic : list Calls.call :=
  [Calls.CallStoreRaw "k2" (Some [4; 5]); Calls.CallLookup "Y";
   Calls.CallLookupRaw "k1"; Calls.CallSaveToDisk; Calls.CallLookup "X"].

(** Thread 2 asks for the mutex while thread 1 is between its test and its
    insertion, and again later. *)
Definition interleaved : list Race.tid :=
  [Race.T1; Race.T1; Race.T2; Race.T1; Race.T2; Race.T1; Race.T2; Race.T1;
   Race.T2; Race.T2; Race.T1; Race.T2; Race.T2].

End Examples.

(** ** What a cache in use looks like *)

Module Shape.
Import PipelineCacheManager Calls.

(** No key is registered with a null pipeline cache. *)
Definition no_null_pipeline (this : t) : Prop :=
  ∀ k, m_vkCache this !! k ≠ Some nullptr.

(** No pipeline cache is registered under two keys. *)
Definition one_key_per_object (this : t) : Prop :=
  ∀ k1 k2 obj, m_vkCache this !! k1 = Some (Some obj) →
               m_vkCache this !! k2 = Some (Some obj) → k1 = k2.

Definition sound (this : t) (w : World) : Prop :=
  consistent this w ∧ no_null_pipeline this ∧ one_key_per_object this.

(** Calls that can change the pipeline map. *)
Definition writes_pipelines (c : call) : bool :=
  match c with
  | CallClear | CallLookup _ => true
  | _ => false
  end.

(** Calls that can change the blob map. *)
Definition writes_blobs (c : call) : bool :=
  match c with
  | CallClear | CallStoreRaw _ _ => true
  | _ => false
  end.

(** The number of lines a call that returns adds to the log. *)
Definition log_lines (c : call) : nat :=
  match c with
  | CallLookupRaw _ | CallStoreRaw _ _ | CallLookup _ => 1
  | CallClear | CallLoadFromDisk | CallSaveToDisk => 0
  end.

End Shape.

(** ** ChannelRenderer

    [MakePathSignalBody] and [RenderComplexSignal] draw on a Cairo context.
    A call is modelled by the list of drawing commands it issues, in order.
    The arithmetic of [float] and [double] is left uninterpreted (a
    [Numerics] record supplies the types, the operations and the
    conversions), so that nothing proved below depends on rounding.  The
    text toolkit ([GetStringWidth] for the font "sans normal 10", and the
    C library's [islower] for the current locale) is a [Text] record.
    [int] is 32 bits wide and [size_t] 64 bits; overflow of an [int]
    addition has no defined result. *)

Module ChannelRenderer.

Record Numerics : Type := mkNumerics {
  float : Type;
  double : Type;
  float_of_int : Z → float;
  fadd : float → float → float;
  fsub : float → float → float;
  fmul : float → float → float;
  fdiv : float → float → float;
  flt : float → float → bool;                  (* a < b *)
  float_1_5 : float;                           (* 1.5f *)
  double_of_float : float → double;
  double_of_int : Z → double;
  dmul : double → double → double;
  M_PI : double;
  M_PI_2 : double;
  double_0_25 : double                         (* 0.25 *)
}.

Record Text : Type := mkText {
  GetStringWidth : string → Z * Z;             (* width and height, in pixels *)
  islower : Ascii.ascii → bool
}.

(** How a call ends. *)
Inductive fate (A : Type) : Type :=
| Completes (a : A)
| ThrowsOutOfRange                             (* std::out_of_range *)
| Overflows.                                   (* signed overflow *)
Arguments Completes {A} a.
Arguments ThrowsOutOfRange {A}.
Arguments Overflows {A}.

Definition and_then {A B} (x : fate A) (f : A → fate B) : fate B :=
  match x with
  | Completes a => f a
  | ThrowsOutOfRange => ThrowsOutOfRange
  | Overflows => Overflows
  end.

Definition to_int (z : Z) : Z := ((z + 2 ^ 31) mod 2 ^ 32 - 2 ^ 31)%Z.
Definition to_size_t (z : Z) : Z := (z mod 2 ^ 64)%Z.

Definition in_int (z : Z) : bool := ((- 2 ^ 31 <=? z) && (z <? 2 ^ 31))%Z.

Definition int_add (a b : Z) : fate Z :=
  if in_int (a + b) then Completes (a + b)%Z else Overflows.

(** [s.substr(pos, n)] *)
Definition substr (s : string) (pos n : Z) : fate string :=
  if (Z.of_nat (String.length s) <? pos)%Z then ThrowsOutOfRange
  else Completes (String.substring (Z.to_nat pos) (Z.to_nat n) s).

(** [s.substr(pos)]: from [pos] to the end *)
Definition substr_from (s : string) (pos : Z) : fate string :=
  if (Z.of_nat (String.length s) <? pos)%Z then ThrowsOutOfRange
  else Completes (String.substring (Z.to_nat pos) (String.length s - Z.to_nat pos) s).

Definition underscore : Ascii.ascii := Ascii.ascii_of_nat 95.

(** [s.find("_") != string::npos] *)
Fixpoint has_underscore (s : string) : bool :=
  match s with
  | EmptyString => false
  | String c s' => if Ascii.eqb c underscore then true else has_underscore s'
  end.

Inductive cairo (double : Type) : Type :=
| begin_new_sub_path
| arc (xc yc radius angle1 angle2 : double)
| move_to (x y : double)
| line_to (x y : double)
| set_source_rgb (red green blue : double)
| fill
| stroke
| save
| restore
| show_in_cairo_context (font : string) (text : string).
Arguments begin_new_sub_path {double}.
Arguments arc {double} _ _ _ _ _.
Arguments move_to {double} _ _.
Arguments line_to {double} _ _.
Arguments set_source_rgb {double} _ _ _.
Arguments fill {double}.
Arguments stroke {double}.
Arguments save {double}.
Arguments restore {double}.
Arguments show_in_cairo_context {double} _ _.

Record Color (double : Type) : Type := mkColor {
  get_red_p : double;
  get_green_p : double;
  get_blue_p : double
}.
Arguments get_red_p {double} _.
Arguments get_green_p {double} _.
Arguments get_blue_p {double} _.

Section Drawing.
Variable num : Numerics.
Variable text : Text.

Local Abbreviation D := (double_of_float num).
Local Abbreviation F := (float_of_int num).
Local Infix "+." := (fadd num) (at level 50, left associativity).
Local Infix "-." := (fsub num) (at level 50, left associativity).
Local Infix "*." := (fmul num) (at level 40, left associativity).
Local Infix "/." := (fdiv num) (at level 40, left associativity).
Local Infix "<." := (flt num) (at level 70).

Definition MakePathSignalBody (xstart xend ybot ytop : float num)
  : list (cairo (double num)) :=
  (* If the signal is really tiny, shrink the rounding to avoid going out of bounds *)
  let rounding := F 10 in
  let rounding := if xend <. xstart +. F 2 *. rounding
                  then (xend -. xstart) /. F 2
                  else rounding in
  [ begin_new_sub_path;
    arc (D (xstart +. rounding)) (D (ytop +. rounding)) (D rounding)
        (M_PI num) (dmul num (M_PI num) (D (float_1_5 num)));     (* top left corner *)
    move_to (D (xstart +. rounding)) (D ytop);                     (* top edge *)
    line_to (D (xend -. rounding)) (D ytop);
    arc (D (xend -. rounding)) (D (ytop +. rounding)) (D rounding)
        (dmul num (M_PI num) (D (float_1_5 num))) (double_of_int num 0); (* top right corner *)
    move_to (D xend) (D (ytop +. rounding));                       (* right edge *)
    line_to (D xend) (D (ybot -. rounding));
    arc (D (xend -. rounding)) (D (ybot -. rounding)) (D rounding)
        (double_of_int num 0) (M_PI_2 num);                        (* bottom right corner *)
    move_to (D (xend -. rounding)) (D ybot);                       (* bottom edge *)
    line_to (D (xstart +. rounding)) (D ybot);
    arc (D (xstart +. rounding)) (D (ybot -. rounding)) (D rounding)
        (M_PI_2 num) (M_PI num);                                   (* bottom left corner *)
    move_to (D xstart) (D (ybot -. rounding));                     (* left edge *)
    line_to (D xstart) (D (ytop +. rounding)) ].

(** The first part of [RenderComplexSignal]: where the text goes and how
    much room it has.  The result is the string still to be drawn (empty
    when it was given up), [xp] and [available_width]. *)
Definition place (visleft visright : Z) (xstart xend xoff : float num)
    (str : string) (width : Z) : fate (string * float num * float num) :=
  (* First-order guess of position: center of the value *)
  let xp := xstart +. (xend -. xstart) /. F 2 in
  (* Width within this signal outline *)
  let available_width := xend -. xstart -. F 2 *. xoff in
  (* Minimum width (if outline ends up being smaller than this, just fill) *)
  let min_width := F 40 in
  let min_width := if F width <. min_width then F width else min_width in
  (* Does the string fit at all? If not, skip all of the messy math *)
  if available_width <. min_width then Completes ("", xp, available_width)
  else
    (* Center the text by moving it left half a width *)
    let xp := xp -. F (width ÷ 2) in
    let padding := 5%Z in
    and_then (int_add visleft padding) (λ left_edge,
      let keep_or_drop '(xp, available_width) :=
        (* If we don't fit under the new constraints, give up *)
        if available_width <. min_width then ("", xp, available_width)
        else (str, xp, available_width) in
      (* Off the left end? Push it right *)
      if xp <. F left_edge then
        let xp := F left_edge in
        Completes (keep_or_drop (xp, xend -. xp -. xoff))
      (* Off the right end? Push it left *)
      else if F visright <. xp +. F width +. F padding then
        and_then (int_add width padding) (λ taken,
          let xp := F visright -. (F taken +. xoff) in
          let xp := if xp <. xstart then xstart +. xoff else xp in
          let available_width :=
            if xend <. F visright then xend -. xp -. xoff
            else F visright -. xp -. xoff in
          Completes (keep_or_drop (xp, available_width)))
      else Completes (keep_or_drop (xp, available_width))).

(** No character of the string is a lowercase letter. *)
Fixpoint is_all_upper (s : string) : bool :=
  match s with
  | EmptyString => true
  | String c s' => negb (islower text c) && is_all_upper s'
  end.

(** If the text is all caps and includes an underscore, it's probably a
    macro with a prefix.  Trim from the left in this case.  Otherwise, trim
    from the right. *)
Definition trim_from_right (str : string) : bool :=
  negb (is_all_upper str && has_underscore str).

(** The string tried for [len] in the shortening loop. *)
Definition shortened (str : string) (len : Z) : fate string :=
  if trim_from_right str
  then and_then (substr str 0 len) (λ s, Completes (s ++ "..."))
  else and_then
         (substr_from str (to_size_t (Z.of_nat (String.length str) - len - 1)))
         (λ s, Completes ("..." ++ s)).

(** The shortening loop, from [len] down to 2: the text to draw and [xp]. *)
Fixpoint shorten (xstart xoff available_width : float num) (str : string)
    (len : nat) (str_render : string) (xp : float num) : fate (string * float num) :=
  match len with
  | S (S _ as len') =>
    and_then (shortened str (Z.of_nat len)) (λ str_render,
      let '(twidth, theight) := GetStringWidth text str_render in
      if F twidth <. available_width then
        (* Re-center text in available space *)
        let xp := xp +. (available_width -. F twidth) /. F 2 in
        let xp := if xp <. xstart +. xoff then xstart +. xoff else xp in
        Completes (str_render, xp)
      else shorten xstart xoff available_width str len' str_render xp)
  | _ => Completes (str_render, xp)
  end.

(** The text that is drawn for a non-empty [str], and where. *)
Definition fit_text (xstart xoff available_width : float num) (str : string)
    (width : Z) (xp : float num) : fate (string * float num) :=
  if available_width <. F width then
    let len := to_int (to_size_t (Z.of_nat (String.length str) - 1)) in
    shorten xstart xoff available_width str (Z.to_nat len) str xp
  else Completes (str, xp).

Definition outline (visright : Z) (xstart xend ybot ytop : float num)
    (color : Color (double num)) : list (cairo (double num)) :=
  let xend := if F visright <. xend then F visright else xend in
  set_source_rgb (get_red_p color) (get_green_p color) (get_blue_p color)
  :: MakePathSignalBody xstart xend ybot ytop ++ [stroke].

Definition filler (xstart xend ybot ytop : float num) (color : Color (double num))
  : list (cairo (double num)) :=
  set_source_rgb (dmul num (get_red_p color) (double_0_25 num))
                 (dmul num (get_green_p color) (double_0_25 num))
                 (dmul num (get_blue_p color) (double_0_25 num))
  :: MakePathSignalBody xstart xend ybot ytop ++ [fill].

Definition label (str_render : string) (xp ymid : float num) (sheight : Z)
  : list (cairo (double num)) :=
  [ set_source_rgb (double_of_int num 1) (double_of_int num 1) (double_of_int num 1);
    save;
    move_to (D xp) (D (ymid -. F (sheight ÷ 2)));
    show_in_cairo_context "sans normal 10" str_render;
    restore ].

Definition RenderComplexSignal (visleft visright : Z)
    (xstart xend xoff ybot ymid ytop : float num) (str : string)
    (color : Color (double num)) : fate (list (cairo (double num))) :=
  let '(width, sheight) := GetStringWidth text str in
  and_then (place visleft visright xstart xend xoff str width)
    (λ '(str, xp, available_width),
      and_then
        (if bool_decide (str ≠ "") then
           (* Draw the text *)
           and_then (fit_text xstart xoff available_width str width xp)
             (λ '(str_render, xp), Completes (label str_render xp ymid sheight))
         else
           (* If no text fit, draw filler instead *)
           Completes (filler xstart xend ybot ytop color))
        (λ body,
          (* Draw the body outline after any filler so it shows up on top *)
          Completes (body ++ outline visright xstart xend ybot ytop color)%list)).

End Drawing.

(** Vocabulary for the properties. *)

Definition shows_text {double} (c : cairo double) : bool :=
  match c with show_in_cairo_context _ _ => true | _ => false end.

Definition is_fill {double} (c : cairo double) : bool :=
  match c with fill => true | _ => false end.

(** [str] with all but [len] characters replaced by an ellipsis at the end,
    or all but [len + 1] characters replaced by an ellipsis at the front. *)
Definition candidate (text : Text) (str : string) (len : nat) : string :=
  if trim_from_right text str
  then String.substring 0 len str ++ "..."
  else "..." ++ String.substring (String.length str - len - 1) (len + 1) str.

(** [twidth < available_width] for the string [s]. *)
Definition fits (num : Numerics) (text : Text) (available_width : float num)
    (s : string) : bool :=
  flt num (float_of_int num (fst (GetStringWidth text s))) available_width.

End ChannelRenderer.

(** ** Example toolkits *)

Module RenderExamples.
Import ChannelRenderer.

(** Exact arithmetic on rationals in place of both floating-point types. *)
Definition exact : Numerics :=
  mkNumerics
    QArith_base.Q QArith_base.Q
    QArith_base.inject_Z
    QArith_base.Qplus QArith_base.Qminus QArith_base.Qmult QArith_base.Qdiv
    (λ a b, negb (QArith_base.Qle_bool b a))
    (QArith_base.Qmake 3 2)
    (λ x, x) QArith_base.inject_Z QArith_base.Qmult
    (QArith_base.Qmake 355 113) (QArith_base.Qmake 355 226)
    (QArith_base.Qmake 1 4).

(** A fixed-pitch font, 7 pixels wide and 14 high, in the "C" locale. *)
Definition fixed_pitch : Text :=
  mkText (λ s, (7 * Z.of_nat (String.length s), 14)%Z)
         (λ c, (97 <=? Ascii.nat_of_ascii c)%nat && (Ascii.nat_of_ascii c <=? 122)%nat).

Definition px (z : Z) : QArith_base.Q := QArith_base.inject_Z z.

Definition grey : Color QArith_base.Q :=
  mkColor _ (QArith_base.Qmake 1 2) (QArith_base.Qmake 1 2) (QArith_base.Qmake 1 2).

End RenderExamples.

(** ** Two threads making any two calls at once

    As in [Race], but each thread makes a call of its own.  [Clear],
    [LookupRaw], [StoreRaw] and [Lookup] take [m_mutex] with a [lock_guard]
    on entry and keep it until they return; [LoadFromDisk] and [SaveToDisk]
    take no lock.  Inside a call, a thread moves one statement at a time. *)

Module Threads.
Import PipelineCacheManager Calls.

Abbreviation tid := Race.tid.
Abbreviation T1 := Race.T1.
Abbreviation T2 := Race.T2.

(** Where a thread is between taking the mutex and fixing its return value. *)
Inductive inside : Type :=
| ClearVk                                   (* Clear: about to clear m_vkCache *)
| ClearRaw                                  (* Clear: about to clear m_rawDataCache *)
| RawFind                                   (* LookupRaw: about to test find(key) *)
| RawAssign                                 (* StoreRaw: about to assign m_rawDataCache[key] *)
| RawLog                                    (* StoreRaw: about to read value->size() and log *)
| VkFind                                    (* Lookup: about to test find(key) *)
| VkMissed                                  (* Lookup: miss logged; about to make the object *)
| VkMade (ret : shared_ptr PipelineCache).  (* Lookup: about to assign m_vkCache[key] = ret *)

Inductive pc : Type :=
| Entry                                     (* the call has not begun *)
| Inside (b : inside)                       (* in the body, holding the mutex *)
| Leaving (r : reply)                       (* return value fixed; lock_guard still alive *)
| Done (r : reply)                          (* returned to the caller *)
| Crashed.                                  (* dereferenced a null pointer *)

(** The first statement after the [lock_guard]; [None] for the calls that
    take no lock. *)
Definition first (c : call) : option inside :=
  match c with
  | CallClear => Some ClearVk
  | CallLookupRaw _ => Some RawFind
  | CallStoreRaw _ _ => Some RawAssign
  | CallLookup _ => Some VkFind
  | CallLoadFromDisk | CallSaveToDisk => None
  end.

(** One statement of the body of call [c]; [None] when [b] is not a place
    in the body of [c]. *)
Definition advance (c : call) (b : inside) (m : t) (w : World)
  : option (pc * t * World) :=
  match c, b with
  | CallClear, ClearVk =>
    Some (Inside ClearRaw, mk (m_cacheRootDir m) ∅ (m_rawDataCache m), w)
  | CallClear, ClearRaw =>
    Some (Leaving ReplyVoid, mk (m_cacheRootDir m) (m_vkCache m) ∅, w)
  | CallLookupRaw key, RawFind =>
    match m_rawDataCache m !! key with
    | Some v => Some (Leaving (ReplyBlob v), m, LogTrace "Hit for raw %s\n" [ArgStr key] w)
    | None =>
      Some (Leaving (ReplyBlob nullptr), m, LogTrace "Miss for raw %s\n" [ArgStr key] w)
    end
  | CallStoreRaw key value, RawAssign =>
    Some (Inside RawLog,
          mk (m_cacheRootDir m) (m_vkCache m) (<[key := value]> (m_rawDataCache m)), w)
  | CallStoreRaw key value, RawLog =>
    match value with
    | Some words =>
      Some (Leaving ReplyVoid, m,
            LogTrace "Store raw: %s (%zu words)\n"
                     [ArgStr key; ArgNum (Z.of_nat (length words))] w)
    | None => Some (Crashed, m, w)
    end
  | CallLookup key, VkFind =>
    match m_vkCache m !! key with
    | Some p =>
      Some (Leaving (ReplyPipeline p), m, LogTrace "Hit for pipeline %s\n" [ArgStr key] w)
    | None => Some (Inside VkMissed, m, LogTrace "Miss for pipeline %s\n" [ArgStr key] w)
    end
  | CallLookup key, VkMissed =>
    let '(obj, w1) := make_shared_PipelineCache w in
    Some (Inside (VkMade (Some obj)), m, w1)
  | CallLookup key, VkMade ret =>
    Some (Leaving (ReplyPipeline ret),
          mk (m_cacheRootDir m) (<[key := ret]> (m_vkCache m)) (m_rawDataCache m), w)
  | _, _ => None
  end.

Record config : Type := mkConfig {
  mgr : t;
  world : World;
  m_mutex : option tid;                     (* the thread that holds it, if any *)
  pc1 : pc;
  pc2 : pc
}.

Definition pc_of (i : tid) (c : config) : pc :=
  match i with Race.T1 => pc1 c | Race.T2 => pc2 c end.

Definition at_pc (i : tid) (p : pc) (m : t) (w : World) (mu : option tid) (c : config)
  : config :=
  match i with
  | Race.T1 => mkConfig m w mu p (pc2 c)
  | Race.T2 => mkConfig m w mu (pc1 c) p
  end.

(** One statement of thread [i], which is making call [c]; [None] when the
    thread cannot move. *)
Definition step_of (c : call) (i : tid) (cfg : config) : option config :=
  match pc_of i cfg with
  | Entry =>
    match first c with
    | Some b =>
      match m_mutex cfg with
      | None => Some (at_pc i (Inside b) (mgr cfg) (world cfg) (Some i) cfg)
      | Some _ => None
      end
    | None => Some (at_pc i (Done ReplyVoid) (mgr cfg) (world cfg) (m_mutex cfg) cfg)
    end
  | Inside b =>
    match advance c b (mgr cfg) (world cfg) with
    | Some (p, m, w) => Some (at_pc i p m w (m_mutex cfg) cfg)
    | None => None
    end
  | Leaving r => Some (at_pc i (Done r) (mgr cfg) (world cfg) None cfg)
  | Done _ | Crashed => None
  end.

Definition step (c1 c2 : call) (i : tid) (cfg : config) : option config :=
  match i with
  | Race.T1 => step_of c1 i cfg
  | Race.T2 => step_of c2 i cfg
  end.

(** Follows a schedule; a thread picked while it cannot move is skipped. *)
Fixpoint run (c1 c2 : call) (sched : list tid) (cfg : config) : config :=
  match sched with
  | [] => cfg
  | i :: sched' =>
    match step c1 c2 i cfg with
    | Some cfg' => run c1 c2 sched' cfg'
    | None => run c1 c2 sched' cfg
    end
  end.

Definition start (this : t) (w : World) : config :=
  mkConfig this w None Entry Entry.

Definition finished (cfg : config) : bool :=
  match pc1 cfg, pc2 cfg with
  | Done _, Done _ => true
  | _, _ => false
  end.

(** Statements a thread has left, at most. *)
Definition remaining (p : pc) : nat :=
  match p with
  | Entry => 5
  | Inside VkFind => 4
  | Inside ClearVk | Inside RawAssign | Inside VkMissed => 3
  | Inside ClearRaw | Inside RawFind | Inside RawLog | Inside (VkMade _) => 2
  | Leaving _ => 1
  | Done _ | Crashed => 0
  end.

(** The rest of the body of [c] from [p], run without interruption: the
    return value, the manager and the world at the end. *)
Fixpoint finish (fuel : nat) (c : call) (p : pc) (m : t) (w : World)
  : option (reply * t * World) :=
  match p with
  | Leaving r => Some (r, m, w)
  | Inside b =>
    match fuel with
    | O => None
    | S fuel' =>
      match advance c b m w with
      | Some (p', m', w') => finish fuel' c p' m' w'
      | None => None
      end
    end
  | Entry | Done _ | Crashed => None
  end.

(** Thread-by-thread account of a configuration, for two calls begun in
    manager [m0] and world [w0]: a thread inside its call will, left alone,
    end as the whole call would have from the state it began in. *)
Definition runs (c : call) (p : pc) (m0 : t) (w0 : World) (cfg : config) : Prop :=
  ∃ r m' w', finish 3 c p (mgr cfg) (world cfg) = Some (r, m', w')
             ∧ exec c m0 w0 = mkRet (Returns r) m' w'.

Definition ran (c : call) (r : reply) (m0 : t) (w0 : World) (m : t) (w : World) : Prop :=
  exec c m0 w0 = mkRet (Returns r) m w.

Definition agrees (c1 c2 : call) (m0 : t) (w0 : World) (cfg : config) : Prop :=
  match pc1 cfg, pc2 cfg with
  | Entry, Entry => m_mutex cfg = None ∧ mgr cfg = m0 ∧ world cfg = w0
  | (Inside _ | Leaving _) as p, Entry =>
    m_mutex cfg = Some T1 ∧ runs c1 p m0 w0 cfg
  | Entry, (Inside _ | Leaving _) as p =>
    m_mutex cfg = Some T2 ∧ runs c2 p m0 w0 cfg
  | Done r1, Entry => m_mutex cfg = None ∧ ran c1 r1 m0 w0 (mgr cfg) (world cfg)
  | Entry, Done r2 => m_mutex cfg = None ∧ ran c2 r2 m0 w0 (mgr cfg) (world cfg)
  | Done r1, (Inside _ | Leaving _) as p =>
    m_mutex cfg = Some T2 ∧ ∃ m1 w1, ran c1 r1 m0 w0 m1 w1 ∧ runs c2 p m1 w1 cfg
  | (Inside _ | Leaving _) as p, Done r2 =>
    m_mutex cfg = Some T1 ∧ ∃ m2 w2, ran c2 r2 m0 w0 m2 w2 ∧ runs c1 p m2 w2 cfg
  | Done r1, Done r2 =>
    m_mutex cfg = None
    ∧ ((∃ m1 w1, ran c1 r1 m0 w0 m1 w1 ∧ ran c2 r2 m1 w1 (mgr cfg) (world cfg))
       ∨ (∃ m2 w2, ran c2 r2 m0 w0 m2 w2 ∧ ran c1 r1 m2 w2 (mgr cfg) (world cfg)))
  | _, _ => False
  end.

End Threads.

(** * Properties *)

(** ** Single calls on the cache *)

Section CacheFacts.
Import PipelineCacheManager.

Implicit Types (this : t) (w : World) (k key : string).

Lemma Lookup_hit k this w p :
  m_vkCache this !! k = Some p →
  Lookup k this w
  = mkRet (Returns p) this (LogTrace "Hit for pipeline %s\n" [ArgStr k] w).
Proof. intros H. unfold Lookup. by rewrite H. Qed.

Lemma Lookup_miss k this w :
  m_vkCache this !! k = None →
  Lookup k this w
  = mkRet (Returns (Some (mkPipelineCache (w_pipelineCaches w))))
          (mk (m_cacheRootDir this)
              (<[k := Some (mkPipelineCache (w_pipelineCaches w))]> (m_vkCache this))
              (m_rawDataCache this))
          (snd (make_shared_PipelineCache (LogTrace "Miss for pipeline %s\n" [ArgStr k] w))).
Proof. intros H. unfold Lookup. by rewrite H. Qed.

Lemma Lookup_returns k this w :
  ∃ p, result (Lookup k this w) = Returns p.
Proof.
  destruct (m_vkCache this !! k) as [p|] eqn:E.
  - rewrite (Lookup_hit _ _ _ _ E). by eexists.
  - rewrite (Lookup_miss _ _ _ E). by eexists.
Qed.

Lemma Lookup_registers k this w p :
  result (Lookup k this w) = Returns p →
  m_vkCache (this' (Lookup k this w)) !! k = Some p.
Proof.
  destruct (m_vkCache this !! k) as [q|] eqn:E.
  - rewrite (Lookup_hit _ _ _ _ E). simpl. congruence.
  - rewrite (Lookup_miss _ _ _ E). simpl. intros [= <-]. apply lookup_insert_eq.
Qed.

Lemma LookupRaw_reads k this w :
  result (LookupRaw k this w) = Returns (default nullptr (m_rawDataCache this !! k))
  ∧ this' (LookupRaw k this w) = this.
Proof. unfold LookupRaw. by destruct (m_rawDataCache this !! k). Qed.

End CacheFacts.

(** ** Runs of calls *)

Section RunFacts.
Import PipelineCacheManager Calls.

Implicit Types (this : t) (w : World) (k : string) (c : call) (cs : list call).

(** A call other than [Clear] keeps a registered pipeline cache where it is. *)
Lemma exec_keeps_pipeline k p c this w :
  is_clear c = false →
  m_vkCache this !! k = Some p →
  m_vkCache (this' (exec c this w)) !! k = Some p.
Proof.
  intros Hc Hk. destruct c as [|key|key value|key| |]; simpl in *; try done.
  - unfold LookupRaw. by destruct (m_rawDataCache this !! key).
  - by destruct value.
  - destruct (decide (key = k)) as [->|Hne].
    + by rewrite (Lookup_hit _ _ _ _ Hk).
    + destruct (m_vkCache this !! key) as [q|] eqn:E.
      * by rewrite (Lookup_hit _ _ _ _ E).
      * rewrite (Lookup_miss _ _ _ E). simpl. by rewrite lookup_insert_ne.
Qed.

Lemma run_keeps_pipeline k p cs this w :
  forallb (λ c, negb (is_clear c)) cs = true →
  m_vkCache this !! k = Some p →
  m_vkCache (this' (run cs this w)) !! k = Some p.
Proof.
  revert this w. induction cs as [|c cs IH]; intros this w Hcs Hk; simpl in *; [done|].
  apply andb_prop in Hcs as [Hc Hcs]. apply negb_true_iff in Hc.
  pose proof (exec_keeps_pipeline k p c this w Hc Hk) as Hk'.
  destruct (result (exec c this w)); simpl; auto.
Qed.

(** A call that neither clears the cache nor stores under [k] keeps the
    blob stored under [k]. *)
Lemma exec_keeps_blob k v c this w :
  overwrites k c = false →
  m_rawDataCache this !! k = Some v →
  m_rawDataCache (this' (exec c this w)) !! k = Some v.
Proof.
  intros Hc Hk. destruct c as [|key|key value|key| |]; simpl in *; try done.
  - unfold LookupRaw. by destruct (m_rawDataCache this !! key).
  - apply bool_decide_eq_false in Hc.
    destruct value; simpl; by rewrite lookup_insert_ne.
  - unfold Lookup. by destruct (m_vkCache this !! key).
Qed.

Lemma run_keeps_blob k v cs this w :
  forallb (λ c, negb (overwrites k c)) cs = true →
  m_rawDataCache this !! k = Some v →
  m_rawDataCache (this' (run cs this w)) !! k = Some v.
Proof.
  revert this w. induction cs as [|c cs IH]; intros this w Hcs Hk; simpl in *; [done|].
  apply andb_prop in Hcs as [Hc Hcs]. apply negb_true_iff in Hc.
  pose proof (exec_keeps_blob k v c this w Hc Hk) as Hk'.
  destruct (result (exec c this w)); simpl; auto.
Qed.

(** Once [k] is registered, later [Lookup(k)] calls create nothing. *)
Lemma created_for_registered k p cs this w :
  forallb (λ c, negb (is_clear c)) cs = true →
  m_vkCache this !! k = Some p →
  created_for k cs this w = 0.
Proof.
  revert this w. induction cs as [|c cs IH]; intros this w Hcs Hk; simpl in *; [done|].
  apply andb_prop in Hcs as [Hc Hcs]. apply negb_true_iff in Hc.
  pose proof (exec_keeps_pipeline k p c this w Hc Hk) as Hk'.
  assert (Hfirst : (if is_lookup_of k c
                    then w_pipelineCaches (world' (exec c this w)) - w_pipelineCaches w
                    else 0) = 0).
  { destruct c as [|key|key value|key| |]; simpl; try done.
    case_bool_decide as Hkey; [subst key|done].
    rewrite (Lookup_hit _ _ _ _ Hk). simpl. lia. }
  rewrite Hfirst.
  destruct (result (exec c this w)); [|done..].
  rewrite (IH _ _ Hcs Hk'). done.
Qed.

Lemma created_for_at_most_one k cs this w :
  forallb (λ c, negb (is_clear c)) cs = true →
  created_for k cs this w ≤ 1.
Proof.
  revert this w. induction cs as [|c cs IH]; intros this w Hcs; simpl in *; [lia|].
  apply andb_prop in Hcs as [Hc Hcs]. apply negb_true_iff in Hc.
  destruct (is_lookup_of k c) eqn:Hl.
  - destruct c as [|key|key value|key| |]; simpl in Hl; try done.
    apply bool_decide_eq_true in Hl. subst key. simpl.
    destruct (m_vkCache this !! k) as [p|] eqn:E.
    + rewrite (Lookup_hit _ _ _ _ E). simpl.
      specialize (IH this (LogTrace "Hit for pipeline %s\n" [ArgStr k] w) Hcs). lia.
    + rewrite (Lookup_miss _ _ _ E). simpl.
      erewrite created_for_registered; [lia|done|]. simpl. apply lookup_insert_eq.
  - specialize (IH (this' (exec c this w)) (world' (exec c this w)) Hcs).
    destruct (result (exec c this w)); simpl; lia.
Qed.

End RunFacts.

Section Consistency.
Import PipelineCacheManager Calls.

Lemma fresh_consistent w : consistent fresh w.
Proof. intros k obj H. simpl in H. by rewrite lookup_empty in H. Qed.

Lemma exec_consistent c this w :
  consistent this w → consistent (this' (exec c this w)) (world' (exec c this w)).
Proof.
  intros Hc. destruct c as [|key|key value|key| |]; simpl; try done.
  - unfold LookupRaw. by destruct (m_rawDataCache this !! key).
  - by destruct value.
  - destruct (m_vkCache this !! key) as [q|] eqn:E.
    + by rewrite (Lookup_hit _ _ _ _ E).
    + rewrite (Lookup_miss _ _ _ E). intros k obj. simpl.
      rewrite lookup_insert. case_decide.
      * intros [= <-]. simpl. lia.
      * intros H'. specialize (Hc _ _ H'). lia.
Qed.

End Consistency.

(** ** The cache, one caller at a time *)

Section CacheClaims.
Import PipelineCacheManager Calls.

(** C3. [Lookup(k)] returns the pipeline cache registered under [k] when
    there is one, and changes nothing but the log; otherwise it makes a new
    pipeline cache on the device, registers it under [k] and returns it.
    After a first [Lookup(k)], and any calls that follow it other than
    [Clear], a second [Lookup(k)] returns the same object and creates
    nothing.  In a run of calls without [Clear], the [Lookup(k)] calls
    create at most one object between them. *)
Theorem Lookup_get_or_create (k : string) (this : t) (w : World) :
  (∀ p, m_vkCache this !! k = Some p →
        Lookup k this w
        = mkRet (Returns p) this (LogTrace "Hit for pipeline %s\n" [ArgStr k] w))
  ∧ (m_vkCache this !! k = None →
     let obj := mkPipelineCache (w_pipelineCaches w) in
     let r := Lookup k this w in
     result r = Returns (Some obj)
     ∧ m_vkCache (this' r) = <[k := Some obj]> (m_vkCache this)
     ∧ m_rawDataCache (this' r) = m_rawDataCache this
     ∧ w_pipelineCaches (world' r) = w_pipelineCaches w + 1)
  ∧ (∀ cs, forallb (λ c, negb (is_clear c)) cs = true →
     let r1 := Lookup k this w in
     let r2 := run cs (this' r1) (world' r1) in
     let r3 := Lookup k (this' r2) (world' r2) in
     result r2 = Returns tt →
     result r3 = result r1
     ∧ this' r3 = this' r2
     ∧ w_pipelineCaches (world' r3) = w_pipelineCaches (world' r2))
  ∧ (∀ cs, forallb (λ c, negb (is_clear c)) cs = true →
     created_for k cs this w ≤ 1).
Proof.
  split; [|split; [|split]].
  - intros p Hp. by apply Lookup_hit.
  - intros Hk obj r. subst obj r. rewrite (Lookup_miss _ _ _ Hk). simpl.
    repeat split; lia.
  - intros cs Hcs r1 r2 r3 _. subst r1 r2 r3.
    destruct (Lookup_returns k this w) as [p Hp].
    pose proof (Lookup_registers _ _ _ _ Hp) as Hreg.
    pose proof (run_keeps_pipeline k p cs _ (world' (Lookup k this w)) Hcs Hreg) as Hkeep.
    rewrite (Lookup_hit _ _ _ _ Hkeep). simpl. by rewrite Hp.
  - intros cs Hcs. by apply created_for_at_most_one.
Qed.

(** C4. [StoreRaw(k, v)] with [v] a blob returns, and [LookupRaw(k)] then
    returns [v]: at once, and after any further calls that returned, as
    long as none of them was [Clear] or a [StoreRaw] under [k]. *)
Theorem StoreRaw_then_LookupRaw (k : string) (words : blob) (this : t) (w : World)
    (cs : list call) :
  forallb (λ c, negb (overwrites k c)) cs = true →
  let r1 := StoreRaw k (Some words) this w in
  let r2 := run cs (this' r1) (world' r1) in
  result r1 = Returns tt
  ∧ (result r2 = Returns tt →
     result (LookupRaw k (this' r2) (world' r2)) = Returns (Some words)).
Proof.
  intros Hcs r1 r2. split; [done|]. intros _.
  assert (Hk : m_rawDataCache (this' r1) !! k = Some (Some words))
    by (subst r1; simpl; apply lookup_insert_eq).
  pose proof (run_keeps_blob k _ cs _ (world' r1) Hcs Hk) as Hkeep.
  destruct (LookupRaw_reads k (this' r2) (world' r2)) as [Hr _].
  rewrite Hr. subst r2. by rewrite Hkeep.
Qed.

(** C7. [Clear] returns and leaves both maps empty.  After it, for every
    key, [LookupRaw] returns the null pointer, and [Lookup] makes a new
    pipeline cache, registers it and returns it; in a consistent state the
    new object is none of those that were registered before. *)
Theorem Clear_then_fresh_miss (k : string) (this : t) (w : World) :
  let r := Clear this w in
  let r' := Lookup k (this' r) (world' r) in
  let obj := mkPipelineCache (w_pipelineCaches w) in
  result r = Returns tt
  ∧ m_vkCache (this' r) = ∅
  ∧ m_rawDataCache (this' r) = ∅
  ∧ result (LookupRaw k (this' r) (world' r)) = Returns nullptr
  ∧ result r' = Returns (Some obj)
  ∧ m_vkCache (this' r') = {[k := Some obj]}
  ∧ w_pipelineCaches (world' r') = w_pipelineCaches w + 1
  ∧ (consistent this w →
     ∀ k' old, m_vkCache this !! k' = Some (Some old) → obj ≠ old).
Proof.
  intros r r' obj. subst r r' obj. simpl.
  rewrite (Lookup_miss k (mk (m_cacheRootDir this) ∅ ∅) w (lookup_empty k)). simpl.
  rewrite insert_empty.
  repeat split.
  - lia.
  - intros Hc k' old Hold Heq. subst old. specialize (Hc _ _ Hold). simpl in Hc. lia.
Qed.

(** C8. [LookupRaw] of a key that is not in the blob map returns the null
    pointer.  For every key, present or not, it returns and leaves the
    manager, hence both maps, as they were; outside the manager it only
    adds a line to the log. *)
Theorem LookupRaw_unknown_key (k : string) (this : t) (w : World) :
  m_rawDataCache this !! k = None →
  result (LookupRaw k this w) = Returns nullptr
  ∧ (∀ k', this' (LookupRaw k' this w) = this
           ∧ returned (result (LookupRaw k' this w)) = true
           ∧ w_pipelineCaches (world' (LookupRaw k' this w)) = w_pipelineCaches w
           ∧ w_files (world' (LookupRaw k' this w)) = w_files w).
Proof.
  intros Hk. split.
  - unfold LookupRaw. by rewrite Hk.
  - intros k'. unfold LookupRaw. by destruct (m_rawDataCache this !! k').
Qed.

(** C10. [StoreRaw] reads the word count through [value] for its log line.
    With a non-null [value] it returns, has stored [value] under the key
    and has logged the count; with a null [value] the read is a null
    dereference and the call has no defined result. *)
Theorem StoreRaw_requires_value (k : string) (value : shared_ptr blob) (this : t)
    (w : World) :
  (value ≠ nullptr →
   let r := StoreRaw k value this w in
   result r = Returns tt
   ∧ m_rawDataCache (this' r) !! k = Some value
   ∧ ∃ words, value = Some words
              ∧ world' r = LogTrace "Store raw: %s (%zu words)\n"
                                    [ArgStr k; ArgNum (Z.of_nat (length words))] w)
  ∧ result (StoreRaw k nullptr this w) = Undefined.
Proof.
  split; [|done]. intros Hv. destruct value as [words|]; [|done]. simpl.
  split; [done|]. split; [apply lookup_insert_eq|]. by exists words.
Qed.

End CacheClaims.

Section CacheWitnesses.
Import PipelineCacheManager Calls Examples.

Lemma Lookup_get_or_create_witness :
  m_vkCache fresh !! "X" = None
  ∧ forallb (λ c, negb (is_clear c)) traffic = true
  ∧ result (run traffic (this' (Lookup "X" fresh quiet)) (world' (Lookup "X" fresh quiet)))
    = Returns tt
  ∧ result (Lookup "X" fresh quiet) = Returns (Some (mkPipelineCache 0))
  ∧ result (Lookup "X"
              (this' (run traffic (this' (Lookup "X" fresh quiet))
                          (world' (Lookup "X" fresh quiet))))
              (world' (run traffic (this' (Lookup "X" fresh quiet))
                           (world' (Lookup "X" fresh quiet)))))
    = result (Lookup "X" fresh quiet)
  ∧ created_for "X" (CallLookup "X" :: traffic) fresh quiet ≤ 1.
Proof.
  destruct (Lookup_get_or_create "X" fresh quiet) as (_ & Hmiss & Hsame & Hone).
  assert (Hnone : m_vkCache fresh !! "X" = None) by reflexivity.
  assert (Hcs : forallb (λ c, negb (is_clear c)) traffic = true) by reflexivity.
  assert (Hrun : result (run traffic (this' (Lookup "X" fresh quiet))
                             (world' (Lookup "X" fresh quiet))) = Returns tt)
    by reflexivity.
  split; [exact Hnone|]. split; [exact Hcs|]. split; [exact Hrun|].
  split; [exact (proj1 (Hmiss Hnone))|].
  split; [exact (proj1 (Hsame traffic Hcs Hrun))|].
  apply Hone. reflexivity.
Defined.

Lemma StoreRaw_then_LookupRaw_witness :
  forallb (λ c, negb (overwrites "k1" c)) traffic = true
  ∧ result (run traffic (this' (StoreRaw "k1" (Some [1; 2; 3]) fresh quiet))
                (world' (StoreRaw "k1" (Some [1; 2; 3]) fresh quiet))) = Returns tt
  ∧ result (LookupRaw "k1"
              (this' (run traffic (this' (StoreRaw "k1" (Some [1; 2; 3]) fresh quiet))
                          (world' (StoreRaw "k1" (Some [1; 2; 3]) fresh quiet))))
              (world' (run traffic (this' (StoreRaw "k1" (Some [1; 2; 3]) fresh quiet))
                           (world' (StoreRaw "k1" (Some [1; 2; 3]) fresh quiet)))))
    = Returns (Some [1; 2; 3]).
Proof.
  assert (Hcs : forallb (λ c, negb (overwrites "k1" c)) traffic = true) by reflexivity.
  assert (Hrun : result (run traffic (this' (StoreRaw "k1" (Some [1; 2; 3]) fresh quiet))
                             (world' (StoreRaw "k1" (Some [1; 2; 3]) fresh quiet)))
                 = Returns tt) by reflexivity.
  split; [exact Hcs|]. split; [exact Hrun|].
  exact (proj2 (StoreRaw_then_LookupRaw "k1" [1; 2; 3] fresh quiet traffic Hcs) Hrun).
Defined.

Lemma warm_consistent : consistent warm warm_world.
Proof.
  intros k obj H. simpl in H. apply lookup_singleton_Some in H as [_ [= <-]].
  simpl. lia.
Qed.

Lemma Clear_then_fresh_miss_witness :
  consistent warm warm_world
  ∧ m_vkCache warm !! "X" = Some (Some (mkPipelineCache 0))
  ∧ result (Lookup "X" (this' (Clear warm warm_world)) (world' (Clear warm warm_world)))
    = Returns (Some (mkPipelineCache 1))
  ∧ mkPipelineCache 1 ≠ mkPipelineCache 0.
Proof.
  destruct (Clear_then_fresh_miss "X" warm warm_world)
    as (_ & _ & _ & _ & Hnew & _ & _ & Hdistinct).
  assert (Hold : m_vkCache warm !! "X" = Some (Some (mkPipelineCache 0))) by reflexivity.
  split; [exact warm_consistent|]. split; [exact Hold|]. split; [exact Hnew|].
  exact (Hdistinct warm_consistent "X" (mkPipelineCache 0) Hold).
Defined.

Lemma LookupRaw_unknown_key_witness :
  m_rawDataCache warm !! "k2" = None
  ∧ result (LookupRaw "k2" warm warm_world) = Returns nullptr
  ∧ this' (LookupRaw "k1" warm warm_world) = warm.
Proof.
  assert (Hnone : m_rawDataCache warm !! "k2" = None) by reflexivity.
  destruct (LookupRaw_unknown_key "k2" warm warm_world Hnone) as [Hmiss Hpure].
  split; [exact Hnone|]. split; [exact Hmiss|]. exact (proj1 (Hpure "k1")).
Defined.

Lemma StoreRaw_requires_value_witness :
  Some [1; 2; 3] ≠ (nullptr : shared_ptr blob)
  ∧ result (StoreRaw "k1" (Some [1; 2; 3]) fresh quiet) = Returns tt
  ∧ m_rawDataCache (this' (StoreRaw "k1" (Some [1; 2; 3]) fresh quiet)) !! "k1"
    = Some (Some [1; 2; 3]).
Proof.
  assert (Hv : Some [1; 2; 3] ≠ (nullptr : shared_ptr blob)) by discriminate.
  destruct (proj1 (StoreRaw_requires_value "k1" (Some [1; 2; 3]) fresh quiet) Hv)
    as (Hret & Hstored & _).
  split; [exact Hv|]. split; [exact Hret|]. exact Hstored.
Defined.

End CacheWitnesses.

(** ** VulkanFFTPlan *)

Section PlanClaims.
Import Examples.

Lemma construct_always_returns host n w :
  ∃ plan w2,
    VulkanFFTPlan.construct host n w
    = (Returns plan,
       if bool_decide (VKFFT_SUCCESS ≠ VulkanFFTPlan.builder_status host n w)
       then LogError "Failed to initialize vkFFT (code %d)\n"
                     [ArgNum (VulkanFFTPlan.builder_status host n w)] w2
       else w2)
    ∧ VulkanFFTPlan.m_size plan = n.
Proof.
  unfold VulkanFFTPlan.construct, VulkanFFTPlan.builder_status.
  destruct (make_Fence w) as [fence w1].
  destruct (initializeVkFFT host zeroed_app
              (VulkanFFTPlan.configure host n (fence_serial fence)) w1)
    as [[err app] w2].
  simpl. eexists _, w2. split; reflexivity.
Qed.

(** C1, as the code has it.  When the plan builder reports a status other
    than success, the constructor logs one error line with the status and
    returns all the same: a plan object exists, and its [size()] is [n]. *)
Theorem construct_logs_builder_failure (host : Host) (n : N) (w : World) :
  VulkanFFTPlan.builder_status host n w ≠ VKFFT_SUCCESS →
  ∃ plan w2,
    VulkanFFTPlan.construct host n w
    = (Returns plan,
       LogError "Failed to initialize vkFFT (code %d)\n"
                [ArgNum (VulkanFFTPlan.builder_status host n w)] w2)
    ∧ ∀ w', VulkanFFTPlan.size plan w' = (Returns n, plan, w').
Proof.
  intros Hfail.
  destruct (construct_always_returns host n w) as (plan & w2 & Heq & Hsize).
  exists plan, w2. split.
  - rewrite Heq. by rewrite bool_decide_eq_true_2.
  - intros w'. unfold VulkanFFTPlan.size. by rewrite Hsize.
Qed.

Lemma construct_logs_builder_failure_witness :
  VulkanFFTPlan.builder_status unix_readonly 1024 quiet ≠ VKFFT_SUCCESS
  ∧ ∃ plan w2,
      VulkanFFTPlan.construct unix_readonly 1024 quiet
      = (Returns plan,
         LogError "Failed to initialize vkFFT (code %d)\n"
                  [ArgNum (VulkanFFTPlan.builder_status unix_readonly 1024 quiet)] w2)
      ∧ ∀ w', VulkanFFTPlan.size plan w' = (Returns 1024, plan, w').
Proof.
  assert (Hfail : VulkanFFTPlan.builder_status unix_readonly 1024 quiet ≠ VKFFT_SUCCESS)
    by (vm_compute; discriminate).
  split; [exact Hfail|].
  exact (construct_logs_builder_failure unix_readonly 1024 quiet Hfail).
Defined.

(** C1, as stated, fails: on a host whose builder is out of memory, the
    builder reports a failure and yet the constructor returns a plan. *)
Lemma failed_builder_still_constructs :
  ¬ (∀ host n w,
       VulkanFFTPlan.builder_status host n w ≠ VKFFT_SUCCESS →
       returned (fst (VulkanFFTPlan.construct host n w)) = false).
Proof.
  intros H. specialize (H unix_readonly 1024 quiet).
  assert (Hfail : VulkanFFTPlan.builder_status unix_readonly 1024 quiet ≠ VKFFT_SUCCESS)
    by (vm_compute; discriminate).
  specialize (H Hfail). vm_compute in H. discriminate.
Qed.

(** C9. For [n > 0], when the plan builder reports success, the constructor
    returns a plan on which [size()] returns [n]; [size()] returns without
    changing the plan or anything else. *)
Theorem size_after_construct (host : Host) (n : N) (w : World) :
  0 < n →
  VulkanFFTPlan.builder_status host n w = VKFFT_SUCCESS →
  ∃ plan w1,
    VulkanFFTPlan.construct host n w = (Returns plan, w1)
    ∧ VulkanFFTPlan.size plan w1 = (Returns n, plan, w1)
    ∧ ∀ p w', snd (fst (VulkanFFTPlan.size p w')) = p
              ∧ snd (VulkanFFTPlan.size p w') = w'.
Proof.
  intros _ Hok.
  destruct (construct_always_returns host n w) as (plan & w2 & Heq & Hsize).
  exists plan, w2. split; [|split].
  - rewrite Heq. rewrite bool_decide_eq_false_2; [done|]. intros Hne. by apply Hne.
  - unfold VulkanFFTPlan.size. by rewrite Hsize.
  - done.
Qed.

Lemma size_after_construct_witness :
  0 < 1024
  ∧ VulkanFFTPlan.builder_status unix 1024 quiet = VKFFT_SUCCESS
  ∧ ∃ plan w1,
      VulkanFFTPlan.construct unix 1024 quiet = (Returns plan, w1)
      ∧ VulkanFFTPlan.size plan w1 = (Returns 1024, plan, w1).
Proof.
  assert (Hpos : 0 < 1024) by lia.
  assert (Hok : VulkanFFTPlan.builder_status unix 1024 quiet = VKFFT_SUCCESS)
    by reflexivity.
  split; [exact Hpos|]. split; [exact Hok|].
  destruct (size_after_construct unix 1024 quiet Hpos Hok) as (plan & w1 & Hc & Hs & _).
  exists plan, w1. split; [exact Hc | exact Hs].
Defined.

End PlanClaims.

(** ** Construction and destruction of the cache *)

Section LifetimeClaims.
Import PipelineCacheManager Calls Examples.






Lemma SaveToDisk_does_nothing this w : SaveToDisk this w = mkRet (Returns tt) this w.
Proof. reflexivity. Qed.

Lemma LoadFromDisk_does_nothing this w : LoadFromDisk this w = mkRet (Returns tt) this w.
Proof. reflexivity. Qed.

Lemma destruct_leaves_world this w : world' (destruct_ this w) = w.
Proof. reflexivity. Qed.

(** C6, on the code.  A cache that holds a blob under "k1" and a pipeline
    cache under "X" is destroyed while the disk holds no file: afterwards
    the disk still holds no file, and both entries are gone. *)
Theorem destruct_persists_nothing :
  m_rawDataCache warm !! "k1" = Some (Some [1; 2; 3])
  ∧ m_vkCache warm !! "X" = Some (Some (mkPipelineCache 0))
  ∧ w_files warm_world = ∅
  ∧ result (destruct_ warm warm_world) = Returns tt
  ∧ w_files (world' (destruct_ warm warm_world)) = ∅
  ∧ m_rawDataCache (this' (destruct_ warm warm_world)) = ∅
  ∧ m_vkCache (this' (destruct_ warm warm_world)) = ∅.
Proof. repeat split. Qed.

End LifetimeClaims.

(** ** Two threads racing on one key *)

Section RaceFacts.
Import PipelineCacheManager Race.

Implicit Types (key : string) (c : config) (i : tid) (sched : list tid).

Ltac break_invariant H :=
  destruct H as (Hmu & Hp1 & Hp2 & Hglobal);
  unfold invariant, mutex_agrees, thread_agrees in *; simpl in *.

Ltac settle :=
  simpl in *; rewrite ?lookup_insert_eq;
  intuition (subst; simpl in *; try congruence; try lia).

Lemma start_invariant key this w :
  m_vkCache this !! key = None →
  invariant key (w_pipelineCaches w) (start this w).
Proof. intros Hk. unfold invariant; simpl. repeat split; auto. Qed.

Lemma step_invariant key n0 i c c' :
  invariant key n0 c → step key i c = Some c' → invariant key n0 c'.
Proof.
  intros Hinv Hstep. destruct c as [m w mu p1 p2].
  destruct i; unfold step in Hstep; simpl in Hstep.
  - destruct p1; simpl in Hstep.
    + destruct mu; [done|]. injection Hstep as <-. break_invariant Hinv.
      destruct p2; settle.
    + destruct (m_vkCache m !! key) eqn:E; injection Hstep as <-; break_invariant Hinv;
        destruct p2; settle.
    + injection Hstep as <-. break_invariant Hinv. destruct p2; settle.
    + injection Hstep as <-. break_invariant Hinv. destruct p2; settle.
    + injection Hstep as <-. break_invariant Hinv. destruct p2; settle.
    + done.
  - destruct p2; simpl in Hstep.
    + destruct mu; [done|]. injection Hstep as <-. break_invariant Hinv.
      destruct p1; settle.
    + destruct (m_vkCache m !! key) eqn:E; injection Hstep as <-; break_invariant Hinv;
        destruct p1; settle.
    + injection Hstep as <-. break_invariant Hinv. destruct p1; settle.
    + injection Hstep as <-. break_invariant Hinv. destruct p1; settle.
    + injection Hstep as <-. break_invariant Hinv. destruct p1; settle.
    + done.
Qed.

Lemma run_invariant key n0 sched c :
  invariant key n0 c → invariant key n0 (run key sched c).
Proof.
  revert c. induction sched as [|i sched IH]; intros c Hinv; simpl; [done|].
  destruct (step key i c) as [c'|] eqn:E; [|by apply IH].
  apply IH. by apply (step_invariant key n0 i c).
Qed.

Lemma run_app key sched1 sched2 c :
  run key (sched1 ++ sched2) c = run key sched2 (run key sched1 c).
Proof.
  revert c. induction sched1 as [|i sched1 IH]; intros c; simpl; [done|].
  by destruct (step key i c).
Qed.

(** Every statement brings its thread closer to the end of [Lookup]. *)
Lemma step_decreases key i c c' :
  step key i c = Some c' →
  (remaining (pc1 c') + remaining (pc2 c') < remaining (pc1 c) + remaining (pc2 c))%nat.
Proof.
  destruct c as [m w mu p1 p2]. unfold step.
  destruct i; simpl.
  - destruct p1; simpl; try done.
    + destruct mu; [done|]. intros [= <-]. simpl. lia.
    + destruct (m_vkCache m !! key); intros [= <-]; simpl; lia.
    + intros [= <-]. simpl. lia.
    + intros [= <-]. simpl. lia.
    + intros [= <-]. simpl. lia.
  - destruct p2; simpl; try done.
    + destruct mu; [done|]. intros [= <-]. simpl. lia.
    + destruct (m_vkCache m !! key); intros [= <-]; simpl; lia.
    + intros [= <-]. simpl. lia.
    + intros [= <-]. simpl. lia.
    + intros [= <-]. simpl. lia.
Qed.

(** While a thread is still inside or before [Lookup], some thread can move. *)
Lemma no_deadlock key n0 c :
  invariant key n0 c → finished c = false → ∃ i c', step key i c = Some c'.
Proof.
  intros Hinv Hfin. destruct c as [m w mu p1 p2]. break_invariant Hinv.
  unfold finished in Hfin. simpl in Hfin.
  destruct p1 as [| | |r1|r1|r1].
  - destruct p2 as [| | |r2|r2|r2]; simpl in Hmu.
    + subst mu. exists T1. by eexists.
    + exists T2. unfold step. simpl. destruct (m_vkCache m !! key); by eexists.
    + exists T2. by eexists.
    + exists T2. by eexists.
    + exists T2. by eexists.
    + subst mu. exists T1. by eexists.
  - exists T1. unfold step. simpl. destruct (m_vkCache m !! key); by eexists.
  - exists T1. by eexists.
  - exists T1. by eexists.
  - exists T1. by eexists.
  - destruct p2 as [| | |r2|r2|r2]; simpl in Hmu.
    + subst mu. exists T2. by eexists.
    + exists T2. unfold step. simpl. destruct (m_vkCache m !! key); by eexists.
    + exists T2. by eexists.
    + exists T2. by eexists.
    + exists T2. by eexists.
    + done.
Qed.

(** From wherever a schedule has brought the two threads, both calls can be
    run to their return, in no more statements than they have left. *)
Lemma can_finish key n0 (fuel : nat) c :
  invariant key n0 c →
  (remaining (pc1 c) + remaining (pc2 c) ≤ fuel)%nat →
  ∃ more, (length more ≤ fuel)%nat ∧ finished (run key more c) = true.
Proof.
  revert c. induction fuel as [|fuel IH]; intros c Hinv Hfuel.
  - exists []. split; [done|]. simpl.
    destruct c as [m w mu p1 p2]. simpl in *.
    destruct p1, p2; simpl in *; try lia. done.
  - destruct (finished c) eqn:Hfin.
    + exists []. split; [simpl; lia | done].
    + destruct (no_deadlock key n0 c Hinv Hfin) as (i & c' & Hstep).
      pose proof (step_decreases key i c c' Hstep) as Hdec.
      destruct (IH c' (step_invariant key n0 i c c' Hinv Hstep)) as (more & Hlen & Hdone);
        [lia|].
      exists (i :: more). split; [simpl; lia|]. simpl. by rewrite Hstep.
Qed.

(** One thread running alone goes through [Lookup] as the method does. *)
Lemma alone_is_Lookup key this w :
  let c := run key [T1; T1; T1; T1; T1] (start this w) in
  let r := Lookup key this w in
  mgr c = this' r ∧ world c = world' r ∧ m_mutex c = None
  ∧ ∃ p, pc1 c = Done p ∧ result r = Returns p.
Proof.
  unfold start, run, step; simpl.
  destruct (m_vkCache this !! key) as [p|] eqn:E.
  - rewrite (Lookup_hit _ _ _ _ E). simpl.
    do 3 (split; [done|]). by exists p.
  - rewrite (Lookup_miss _ _ _ E). simpl.
    do 3 (split; [done|]). by eexists.
Qed.

(** C5. Two threads call [Lookup(key)] when [key] is not registered.
    Whatever the scheduler does: the two threads are never both between
    taking and releasing the mutex; at most one pipeline cache is created;
    once both calls have returned they have returned the same object, the
    one registered under [key], and exactly one was created; and the calls
    can always be run on until both return. *)
Theorem racing_Lookups_share_one_object (key : string) (this : t) (w : World)
    (sched : list tid) :
  m_vkCache this !! key = None →
  let c := run key sched (start this w) in
  in_critical_section (pc1 c) && in_critical_section (pc2 c) = false
  ∧ w_pipelineCaches (world c) ≤ w_pipelineCaches w + 1
  ∧ (∀ r1 r2, pc1 c = Done r1 → pc2 c = Done r2 →
       r1 = r2
       ∧ r1 = Some (mkPipelineCache (w_pipelineCaches w))
       ∧ m_vkCache (mgr c) !! key = Some r1
       ∧ w_pipelineCaches (world c) = w_pipelineCaches w + 1)
  ∧ ∃ more, (length more ≤ 10)%nat
            ∧ finished (run key (sched ++ more) (start this w)) = true.
Proof.
  intros Hk c.
  pose proof (run_invariant key _ sched _ (start_invariant key this w Hk)) as Hinv.
  fold c in Hinv.
  assert (Hfuel : (remaining (pc1 c) + remaining (pc2 c) ≤ 10)%nat).
  { destruct (pc1 c), (pc2 c); simpl; lia. }
  destruct (can_finish key _ 10 c Hinv Hfuel) as (more & Hlen & Hdone).
  split; [|split; [|split]].
  - destruct Hinv as (Hmu & _). unfold mutex_agrees in Hmu.
    by destruct (in_critical_section (pc1 c)), (in_critical_section (pc2 c)).
  - destruct Hinv as (_ & Hp1 & Hp2 & Hglobal). unfold thread_agrees in *.
    destruct Hglobal as [[_ Hcount] | [_ Hcount]]; [|lia].
    destruct (pc1 c); simpl in *; try lia;
      destruct (pc2 c); simpl in *; try lia;
      specialize (Hcount eq_refl); lia.
  - intros r1 r2 H1 H2.
    destruct Hinv as (_ & Hp1 & Hp2 & Hglobal). unfold thread_agrees in *.
    rewrite H1 in Hp1. rewrite H2 in Hp2.
    destruct Hglobal as [[Hnone _] | [Hsome Hcount]]; [congruence|].
    repeat split; congruence.
  - exists more. split; [done|]. by rewrite run_app.
Qed.

Lemma racing_Lookups_share_one_object_witness :
  m_vkCache fresh !! "X" = None
  ∧ pc1 (run "X" Examples.interleaved (start fresh Examples.quiet))
    = Done (Some (mkPipelineCache 0))
  ∧ pc2 (run "X" Examples.interleaved (start fresh Examples.quiet))
    = Done (Some (mkPipelineCache 0))
  ∧ w_pipelineCaches (world (run "X" Examples.interleaved (start fresh Examples.quiet)))
    = 0 + 1.
Proof.
  assert (Hk : m_vkCache fresh !! "X" = None) by reflexivity.
  assert (H1 : pc1 (run "X" Examples.interleaved (start fresh Examples.quiet))
               = Done (Some (mkPipelineCache 0))) by reflexivity.
  assert (H2 : pc2 (run "X" Examples.interleaved (start fresh Examples.quiet))
               = Done (Some (mkPipelineCache 0))) by reflexivity.
  destruct (racing_Lookups_share_one_object "X" fresh Examples.quiet
              Examples.interleaved Hk) as (_ & _ & Hsame & _).
  split; [exact Hk|]. split; [exact H1|]. split; [exact H2|].
  exact (proj2 (proj2 (proj2 (Hsame _ _ H1 H2)))).
Defined.

End RaceFacts.

(** * Further properties of the cache *)

Section CacheMore.
Import PipelineCacheManager Calls Shape Examples.

Implicit Types (this : t) (w : World) (k : string) (c : call) (cs : list call).

(** A later [StoreRaw] under the same key replaces the earlier value and
    leaves the manager as if the earlier call had never been made; storing
    the same value again changes nothing. *)
Theorem StoreRaw_last_writer_wins (k : string) (old new : blob) (this : t)
    (w w1 w2 : World) :
  let first := StoreRaw k (Some old) this w in
  let second := StoreRaw k (Some new) (this' first) w1 in
  result second = Returns tt
  ∧ this' second = this' (StoreRaw k (Some new) this w1)
  ∧ result (LookupRaw k (this' second) w2) = Returns (Some new)
  ∧ this' (StoreRaw k (Some new) (this' second) w2) = this' second.
Proof.
  simpl. split; [done|]. split; [|split].
  - by rewrite insert_insert_eq.
  - unfold LookupRaw. simpl. by rewrite lookup_insert_eq.
  - by rewrite insert_insert_eq.
Qed.

Lemma exec_frame c this w :
  (writes_pipelines c = false →
   m_vkCache (this' (exec c this w)) = m_vkCache this
   ∧ w_pipelineCaches (world' (exec c this w)) = w_pipelineCaches w)
  ∧ (writes_blobs c = false →
     m_rawDataCache (this' (exec c this w)) = m_rawDataCache this).
Proof.
  destruct c as [|key|key value|key| |]; simpl; split; try done.
  - unfold LookupRaw. by destruct (m_rawDataCache this !! key).
  - unfold LookupRaw. by destruct (m_rawDataCache this !! key).
  - by destruct value.
  - unfold Lookup. by destruct (m_vkCache this !! key).
Qed.

(** The two maps do not interfere.  A run without [Clear] and [Lookup]
    leaves the pipeline map as it was and creates no device object; a run
    without [Clear] and [StoreRaw] leaves the blob map as it was. *)
Theorem run_frame (cs : list call) (this : t) (w : World) :
  (forallb (λ c, negb (writes_pipelines c)) cs = true →
   m_vkCache (this' (run cs this w)) = m_vkCache this
   ∧ w_pipelineCaches (world' (run cs this w)) = w_pipelineCaches w)
  ∧ (forallb (λ c, negb (writes_blobs c)) cs = true →
     m_rawDataCache (this' (run cs this w)) = m_rawDataCache this).
Proof.
  revert this w. induction cs as [|c cs IH]; intros this w; simpl; [done|].
  destruct (exec_frame c this w) as [Hp Hb].
  destruct (IH (this' (exec c this w)) (world' (exec c this w))) as [IHp IHb].
  split; intros Hcs; apply andb_prop in Hcs as [Hc Hcs]; apply negb_true_iff in Hc.
  - destruct (Hp Hc) as [Hm Hn].
    destruct (result (exec c this w)); simpl; [|done..].
    destruct (IHp Hcs) as [-> ->]. done.
  - specialize (Hb Hc).
    destruct (result (exec c this w)); simpl; [|done..].
    by rewrite (IHb Hcs).
Qed.

Lemma run_frame_witness :
  forallb (λ c, negb (writes_pipelines c))
          [CallStoreRaw "k2" (Some [4; 5]); CallLookupRaw "k1"; CallSaveToDisk] = true
  ∧ m_vkCache (this' (run [CallStoreRaw "k2" (Some [4; 5]); CallLookupRaw "k1";
                           CallSaveToDisk] warm warm_world))
    = m_vkCache warm
  ∧ forallb (λ c, negb (writes_blobs c)) [CallLookup "Y"; CallLookupRaw "k1"] = true
  ∧ m_rawDataCache (this' (run [CallLookup "Y"; CallLookupRaw "k1"] warm warm_world))
    = m_rawDataCache warm.
Proof.
  assert (H1 : forallb (λ c, negb (writes_pipelines c))
                 [CallStoreRaw "k2" (Some [4; 5]); CallLookupRaw "k1"; CallSaveToDisk]
               = true) by reflexivity.
  assert (H2 : forallb (λ c, negb (writes_blobs c)) [CallLookup "Y"; CallLookupRaw "k1"]
               = true) by reflexivity.
  split; [exact H1|]. split; [exact (proj1 (proj1 (run_frame _ warm warm_world) H1))|].
  split; [exact H2|]. exact (proj2 (run_frame _ warm warm_world) H2).
Defined.

Lemma fresh_sound w : sound fresh w.
Proof.
  split; [apply fresh_consistent|]. split.
  - intros k H. simpl in H. by rewrite lookup_empty in H.
  - intros k1 k2 obj H. simpl in H. by rewrite lookup_empty in H.
Qed.

Lemma exec_sound c this w :
  sound this w → sound (this' (exec c this w)) (world' (exec c this w)).
Proof.
  intros (Hc & Hn & Ho). split; [by apply exec_consistent|].
  destruct c as [|key|key value|key| |]; simpl.
  - split.
    + intros k H. simpl in H. by rewrite lookup_empty in H.
    + intros k1 k2 obj H. simpl in H. by rewrite lookup_empty in H.
  - unfold LookupRaw. by destruct (m_rawDataCache this !! key).
  - by destruct value.
  - destruct (m_vkCache this !! key) as [q|] eqn:E.
    + by rewrite (Lookup_hit _ _ _ _ E).
    + rewrite (Lookup_miss _ _ _ E). simpl. split.
      * intros k. simpl. rewrite lookup_insert. case_decide; [done|apply Hn].
      * intros k1 k2 obj. simpl. rewrite !lookup_insert.
        repeat case_decide; subst; try done.
        -- intros [= <-] H2. specialize (Hc _ _ H2). simpl in Hc. lia.
        -- intros H1 [= <-]. specialize (Hc _ _ H1). simpl in Hc. lia.
        -- apply Ho.
  - done.
  - done.
Qed.

Lemma run_sound cs this w :
  sound this w → sound (this' (run cs this w)) (world' (run cs this w)).
Proof.
  revert this w. induction cs as [|c cs IH]; intros this w Hs; simpl; [done|].
  pose proof (exec_sound c this w Hs) as Hs'.
  destruct (result (exec c this w)); simpl; auto.
Qed.

Lemma construct_empty host w this0 w0 :
  construct host w = (Returns this0, w0) →
  m_vkCache this0 = ∅ ∧ m_rawDataCache this0 = ∅.
Proof.
  unfold construct, FindPath, FindPath_Win32, FindPath_Posix.
  destruct (platform host).
  - destruct (SHGetKnownFolderPath host w) as [[stem|] w1]; [|done].
    destruct (PathCombineW host stem "glscopeclient") as [directory|]; [|done].
    destruct (CreateDirectoryW host directory w1) as [created w2].
    destruct (NarrowPath host directory w2) as [[narrow| |] w3]; [|done..].
    cbn [calling].
    destruct (negb created && negb (w_lastError w3 =? ERROR_ALREADY_EXISTS)); [done|].
    simpl. by intros [= <- _].
  - destruct (CreateDirectory host "~/.cache" w) as [[[]| |] w1]; [|done..].
    cbn [calling].
    destruct (CreateDirectory host "~/.cache/glscopeclient" w1) as [[[]| |] w2]; [|done..].
    cbn [calling].
    destruct (ExpandPath host "~/.cache/glscopeclient" w2) as [[dir| |] w3]; [|done..].
    simpl. by intros [= <- _].
Qed.

(** Starting from a newly constructed cache, whatever calls are made and
    whatever they return: every registered pipeline cache is non-null, was
    created by the device, and is registered under one key only.  Hence
    [Lookup] then returns a non-null object for every key, and different
    objects for different keys. *)
Theorem Lookup_distinct_keys_distinct_objects (host : Host) (w w0 w1 : World)
    (this0 : t) (cs : list call) (k1 k2 : string) :
  construct host w = (Returns this0, w0) →
  k1 ≠ k2 →
  let r := run cs this0 w1 in
  let r1 := Lookup k1 (this' r) (world' r) in
  let r2 := Lookup k2 (this' r1) (world' r1) in
  sound (this' r) (world' r)
  ∧ ∃ o1 o2, result r1 = Returns (Some o1) ∧ result r2 = Returns (Some o2) ∧ o1 ≠ o2.
Proof.
  intros Hc Hne r r1 r2.
  destruct (construct_empty _ _ _ _ Hc) as [Hv Hb].
  assert (Hs0 : sound this0 w1).
  { split; [|split].
    - intros k obj. rewrite Hv. by rewrite lookup_empty.
    - intros k. rewrite Hv. by rewrite lookup_empty.
    - intros k k' obj. rewrite Hv. by rewrite lookup_empty. }
  pose proof (run_sound cs this0 w1 Hs0) as Hs. fold r in Hs.
  split; [exact Hs|].
  pose proof (exec_sound (CallLookup k1) _ _ Hs) as Hs1. simpl in Hs1. fold r1 in Hs1.
  pose proof (exec_sound (CallLookup k2) _ _ Hs1) as Hs2. simpl in Hs2. fold r2 in Hs2.
  destruct (Lookup_returns k1 (this' r) (world' r)) as [p1 Hp1]. fold r1 in Hp1.
  destruct (Lookup_returns k2 (this' r1) (world' r1)) as [p2 Hp2]. fold r2 in Hp2.
  pose proof (Lookup_registers _ _ _ _ Hp1) as Hreg1. fold r1 in Hreg1.
  pose proof (Lookup_registers _ _ _ _ Hp2) as Hreg2. fold r2 in Hreg2.
  assert (Hkeep : m_vkCache (this' r2) !! k1 = Some p1).
  { apply (exec_keeps_pipeline k1 p1 (CallLookup k2) (this' r1) (world' r1));
      [done | exact Hreg1]. }
  destruct Hs2 as (_ & Hn2 & Ho2).
  destruct p1 as [o1|]; [|by destruct (Hn2 k1)].
  destruct p2 as [o2|]; [|by destruct (Hn2 k2)].
  exists o1, o2. split; [done|]. split; [done|].
  intros ->. apply Hne. by apply (Ho2 k1 k2 o2).
Qed.

Lemma Lookup_distinct_keys_distinct_objects_witness :
  construct unix quiet
  = (Returns (mk "/home/user/.cache/glscopeclient" ∅ ∅),
     LogNotice "Cache root directory is %s\n"
               [ArgStr "/home/user/.cache/glscopeclient"]
               (mkdir "~/.cache/glscopeclient" (mkdir "~/.cache" quiet)))
  ∧ "X" ≠ "Y"
  ∧ ∃ o1 o2,
      result (Lookup "X" (mk "/home/user/.cache/glscopeclient" ∅ ∅) quiet)
      = Returns (Some o1)
      ∧ result (Lookup "Y"
                  (this' (Lookup "X" (mk "/home/user/.cache/glscopeclient" ∅ ∅) quiet))
                  (world' (Lookup "X" (mk "/home/user/.cache/glscopeclient" ∅ ∅) quiet)))
        = Returns (Some o2)
      ∧ o1 ≠ o2.
Proof.
  assert (Hc : construct unix quiet
               = (Returns (mk "/home/user/.cache/glscopeclient" ∅ ∅),
                  LogNotice "Cache root directory is %s\n"
                            [ArgStr "/home/user/.cache/glscopeclient"]
                            (mkdir "~/.cache/glscopeclient" (mkdir "~/.cache" quiet))))
    by reflexivity.
  assert (Hne : "X" ≠ "Y") by discriminate.
  split; [exact Hc|]. split; [exact Hne|].
  exact (proj2 (Lookup_distinct_keys_distinct_objects unix quiet _ quiet _ [] "X" "Y"
                  Hc Hne)).
Defined.

End CacheMore.

Section CacheAccounting.
Import PipelineCacheManager Calls Shape Examples.

Implicit Types (this : t) (w : World) (k : string) (c : call) (cs : list call).

Lemma exec_counts c this w :
  is_clear c = false →
  N.of_nat (size (m_vkCache (this' (exec c this w)))) + w_pipelineCaches w
  = N.of_nat (size (m_vkCache this)) + w_pipelineCaches (world' (exec c this w)).
Proof.
  intros Hc. destruct c as [|key|key value|key| |]; simpl in *; try done.
  - unfold LookupRaw. by destruct (m_rawDataCache this !! key).
  - by destruct value.
  - destruct (m_vkCache this !! key) as [q|] eqn:E.
    + by rewrite (Lookup_hit _ _ _ _ E).
    + rewrite (Lookup_miss _ _ _ E). simpl.
      rewrite (map_size_insert_None _ _ _ E). lia.
Qed.

(** Without [Clear], pipeline caches are created exactly as keys are
    registered: over any run, the number of objects created on the device
    equals the number of keys the pipeline map has gained. *)
Theorem one_object_per_registered_key (cs : list call) (this : t) (w : World) :
  forallb (λ c, negb (is_clear c)) cs = true →
  N.of_nat (size (m_vkCache (this' (run cs this w)))) + w_pipelineCaches w
  = N.of_nat (size (m_vkCache this)) + w_pipelineCaches (world' (run cs this w)).
Proof.
  revert this w. induction cs as [|c cs IH]; intros this w Hcs; simpl in *; [done|].
  apply andb_prop in Hcs as [Hc Hcs]. apply negb_true_iff in Hc.
  pose proof (exec_counts c this w Hc) as Hstep.
  destruct (result (exec c this w)); simpl; [|done..].
  specialize (IH (this' (exec c this w)) (world' (exec c this w)) Hcs). lia.
Qed.

Lemma one_object_per_registered_key_witness :
  forallb (λ c, negb (is_clear c)) traffic = true
  ∧ N.of_nat (size (m_vkCache (this' (run traffic fresh quiet)))) + 0
    = 0 + w_pipelineCaches (world' (run traffic fresh quiet))
  ∧ w_pipelineCaches (world' (run traffic fresh quiet)) = 2.
Proof.
  assert (Hcs : forallb (λ c, negb (is_clear c)) traffic = true) by reflexivity.
  split; [exact Hcs|].
  split; [exact (one_object_per_registered_key traffic fresh quiet Hcs) | reflexivity].
Defined.

Lemma exec_log c this w :
  returned (result (exec c this w)) = true →
  ∃ lines, w_log (world' (exec c this w)) = (w_log w ++ lines)%list
           ∧ length lines = log_lines c.
Proof.
  destruct c as [|key|key value|key| |]; simpl; intros Hr.
  - exists []. by rewrite app_nil_r.
  - unfold LookupRaw. destruct (m_rawDataCache this !! key); simpl; by eexists [_].
  - destruct value; [|done]. simpl. by eexists [_].
  - unfold Lookup. destruct (m_vkCache this !! key); simpl; by eexists [_].
  - exists []. by rewrite app_nil_r.
  - exists []. by rewrite app_nil_r.
Qed.

(** The log is only ever appended to.  A run of calls that all return adds
    one line for each [LookupRaw], [StoreRaw] and [Lookup], and none for
    [Clear], [LoadFromDisk] and [SaveToDisk]. *)
Theorem run_appends_to_log (cs : list call) (this : t) (w : World) :
  result (run cs this w) = Returns tt →
  ∃ lines, w_log (world' (run cs this w)) = (w_log w ++ lines)%list
           ∧ length lines = sum_list (log_lines <$> cs).
Proof.
  revert this w. induction cs as [|c cs IH]; intros this w Hr; simpl in *.
  - exists []. by rewrite app_nil_r.
  - destruct (exec_log c this w) as (l1 & Hl1 & Hn1).
    { by destruct (result (exec c this w)). }
    destruct (result (exec c this w)); simpl in *; try done.
    destruct (IH _ _ Hr) as (l2 & Hl2 & Hn2).
    exists (l1 ++ l2)%list. split.
    + rewrite Hl2, Hl1. by rewrite app_assoc.
    + rewrite length_app, Hn1, Hn2. reflexivity.
Qed.

Lemma run_appends_to_log_witness :
  result (run traffic fresh quiet) = Returns tt
  ∧ ∃ lines, w_log (world' (run traffic fresh quiet)) = (w_log quiet ++ lines)%list
             ∧ length lines = 4%nat.
Proof.
  assert (Hr : result (run traffic fresh quiet) = Returns tt) by reflexivity.
  split; [exact Hr|]. exact (run_appends_to_log traffic fresh quiet Hr).
Defined.

Lemma exec_leaves_alone c this w :
  m_cacheRootDir (this' (exec c this w)) = m_cacheRootDir this
  ∧ w_files (world' (exec c this w)) = w_files w
  ∧ w_dirs (world' (exec c this w)) = w_dirs w
  ∧ w_fences (world' (exec c this w)) = w_fences w.
Proof.
  destruct c as [|key|key value|key| |]; simpl; try done.
  - unfold LookupRaw. by destruct (m_rawDataCache this !! key).
  - by destruct value.
  - unfold Lookup. by destruct (m_vkCache this !! key).
Qed.

Lemma run_keeps_root cs this w :
  m_cacheRootDir (this' (run cs this w)) = m_cacheRootDir this.
Proof.
  revert this w. induction cs as [|c cs IH]; intros this w; simpl; [done|].
  destruct (exec_leaves_alone c this w) as (H1 & _).
  destruct (result (exec c this w)); simpl; [|done..].
  by rewrite IH.
Qed.

(** No call on the cache changes the root directory the cache was given,
    creates a fence, or creates, removes or writes a file or a directory:
    [SaveToDisk] included, and however the run ends. *)
Theorem run_leaves_disk_alone (cs : list call) (this : t) (w : World) :
  m_cacheRootDir (this' (run cs this w)) = m_cacheRootDir this
  ∧ w_files (world' (run cs this w)) = w_files w
  ∧ w_dirs (world' (run cs this w)) = w_dirs w
  ∧ w_fences (world' (run cs this w)) = w_fences w.
Proof.
  revert this w. induction cs as [|c cs IH]; intros this w; simpl; [done|].
  destruct (exec_leaves_alone c this w) as (H1 & H2 & H3 & H4).
  destruct (result (exec c this w)); simpl; [|done..].
  destruct (IH (this' (exec c this w)) (world' (exec c this w))) as (-> & -> & -> & ->).
  done.
Qed.

(** [Clear] brings the cache back to what the constructor made, whatever
    calls came in between. *)
Theorem Clear_restores_constructed (host : Host) (w w0 w1 w2 : World) (this0 : t)
    (cs : list call) :
  construct host w = (Returns this0, w0) →
  this' (Clear (this' (run cs this0 w1)) w2) = this0
  ∧ world' (Clear (this' (run cs this0 w1)) w2) = w2.
Proof.
  intros Hc. destruct (construct_empty _ _ _ _ Hc) as [Hv Hb].
  pose proof (run_keeps_root cs this0 w1) as Hd.
  simpl. rewrite Hd. destruct this0; simpl in *. by subst.
Qed.

Lemma Clear_restores_constructed_witness :
  construct unix quiet
  = (Returns (mk "/home/user/.cache/glscopeclient" ∅ ∅),
     LogNotice "Cache root directory is %s\n"
               [ArgStr "/home/user/.cache/glscopeclient"]
               (mkdir "~/.cache/glscopeclient" (mkdir "~/.cache" quiet)))
  ∧ this' (Clear (this' (run traffic (mk "/home/user/.cache/glscopeclient" ∅ ∅) quiet))
                 quiet)
    = mk "/home/user/.cache/glscopeclient" ∅ ∅.
Proof.
  assert (Hc : construct unix quiet
               = (Returns (mk "/home/user/.cache/glscopeclient" ∅ ∅),
                  LogNotice "Cache root directory is %s\n"
                            [ArgStr "/home/user/.cache/glscopeclient"]
                            (mkdir "~/.cache/glscopeclient" (mkdir "~/.cache" quiet))))
    by reflexivity.
  split; [exact Hc|].
  exact (proj1 (Clear_restores_constructed unix quiet _ quiet quiet _ traffic Hc)).
Defined.

End CacheAccounting.

(** * Further properties of the plan *)

Section PlanMore.
Import Examples.


End PlanMore.

(** * ChannelRenderer *)

Section TrimFacts.
Import ChannelRenderer.
Variable num : Numerics.
Variable text : Text.

Local Open Scope Z_scope.

Lemma to_size_t_small z : 0 ≤ z < 2 ^ 64 → to_size_t z = z.
Proof. intros H. unfold to_size_t. by apply Z.mod_small. Qed.

Lemma to_int_small z : - 2 ^ 31 ≤ z < 2 ^ 31 → to_int z = z.
Proof. intros H. unfold to_int. rewrite Z.mod_small; lia. Qed.

(** Converting a non-negative number to [int] never gives more than the
    number itself. *)
Lemma to_int_le z : 0 ≤ z → to_int z ≤ z.
Proof.
  intros Hz. unfold to_int.
  pose proof (Z.mod_pos_bound (z + 2 ^ 31) (2 ^ 32) ltac:(lia)) as Hb.
  pose proof (Z.div_mod (z + 2 ^ 31) (2 ^ 32) ltac:(lia)) as Hd.
  assert (0 ≤ (z + 2 ^ 31) / 2 ^ 32) by (apply Z.div_pos; lia).
  lia.
Qed.

(** The loop of [RenderComplexSignal] starts below the length of the text. *)
Lemma first_len_below_length (str : string) :
  Z.of_nat (String.length str) < 2 ^ 64 →
  let n := Z.to_nat (to_int (to_size_t (Z.of_nat (String.length str) - 1))) in
  (n = 0 ∨ n < String.length str)%nat.
Proof.
  intros Hlen n. subst n.
  destruct (String.length str) as [|l] eqn:E.
  - left. reflexivity.
  - right. rewrite to_size_t_small by lia.
    pose proof (to_int_le (Z.of_nat (S l) - 1) ltac:(lia)). lia.
Qed.

Lemma shortened_is_candidate (str : string) (len : nat) :
  (len < String.length str)%nat →
  Z.of_nat (String.length str) < 2 ^ 64 →
  shortened text str (Z.of_nat len) = Completes (candidate text str len).
Proof.
  intros Hlen Hsize. unfold shortened, candidate, substr, substr_from.
  destruct (trim_from_right text str).
  - rewrite (proj2 (Z.ltb_ge _ _)) by lia. simpl. by rewrite Nat2Z.id.
  - rewrite to_size_t_small by lia.
    rewrite (proj2 (Z.ltb_ge _ _)) by lia. simpl.
    replace (Z.to_nat (Z.of_nat (String.length str) - Z.of_nat len - 1))
      with (String.length str - len - 1)%nat by lia.
    replace (String.length str - (String.length str - len - 1))%nat
      with (len + 1)%nat by lia.
    reflexivity.
Qed.

Lemma length_append (a b : string) :
  String.length (a ++ b) = (String.length a + String.length b)%nat.
Proof. induction a as [|c a IH]; simpl; [done|]. by rewrite IH. Qed.

Lemma length_substring (s : string) (n m : nat) :
  (n + m ≤ String.length s)%nat → String.length (String.substring n m s) = m.
Proof.
  revert n m. induction s as [|c s IH]; intros n m H; simpl in *.
  - destruct n, m; simpl; lia.
  - destruct n as [|n].
    + destruct m as [|m]; simpl; [done|]. rewrite IH; lia.
    + apply IH. lia.
Qed.

Lemma substring_all (s : string) : String.substring 0 (String.length s) s = s.
Proof. induction s as [|c s IH]; simpl; [done|]. by rewrite IH. Qed.

(** The string tried for [len] is always there to be tried: [substr] does
    not throw.  Trimmed from the right it keeps the first [len] characters;
    trimmed from the left it keeps the last [len + 1], one more. *)
Theorem shortened_keeps (str : string) (len : nat) :
  (len < String.length str)%nat →
  Z.of_nat (String.length str) < 2 ^ 64 →
  ∃ s, shortened text str (Z.of_nat len) = Completes s
       ∧ (trim_from_right text str = true →
          s = (String.substring 0 len str ++ "...")%string
          ∧ String.length s = (len + 3)%nat)
       ∧ (trim_from_right text str = false →
          s = ("..." ++ String.substring (String.length str - len - 1) (len + 1) str)%string
          ∧ String.length s = (len + 4)%nat).
Proof.
  intros Hlen Hsize. exists (candidate text str len).
  split; [by apply shortened_is_candidate|].
  unfold candidate. split; intros ->.
  - split; [done|]. rewrite length_append, length_substring by lia. simpl. lia.
  - split; [done|]. rewrite length_append, length_substring by lia. simpl. lia.
Qed.

End TrimFacts.

Section ShortenFacts.
Import ChannelRenderer.
Variable num : Numerics.
Variable text : Text.
Variables xstart xoff available_width : float num.

Local Abbreviation fits_here := (fits num text available_width).

Lemma shorten_step (str : string) (n : nat) (str_render : string) (xp : float num) :
  (S (S n) < String.length str)%nat →
  (Z.of_nat (String.length str) < 2 ^ 64)%Z →
  shorten num text xstart xoff available_width str (S (S n)) str_render xp
  = if fits_here (candidate text str (S (S n)))
    then Completes
           (candidate text str (S (S n)),
            let xp0 := fadd num xp
                         (fdiv num
                            (fsub num available_width
                               (float_of_int num
                                  (fst (GetStringWidth text (candidate text str (S (S n)))))))
                            (float_of_int num 2)) in
            if flt num xp0 (fadd num xstart xoff) then fadd num xstart xoff else xp0)
    else shorten num text xstart xoff available_width str (S n)
                 (candidate text str (S (S n))) xp.
Proof.
  intros Hlen Hsize. cbn [shorten].
  rewrite (shortened_is_candidate text str (S (S n)) Hlen Hsize). cbn [and_then].
  unfold fits. destruct (GetStringWidth text (candidate text str (S (S n)))) as [tw th].
  reflexivity.
Qed.

(** What the shortening loop settles on, started at [n]: the longest
    candidate that fits, or, when none does, the last one it tried. *)
Lemma shorten_result (str : string) (n : nat) (str_render : string) (xp : float num) :
  (n = 0 ∨ n < String.length str)%nat →
  (Z.of_nat (String.length str) < 2 ^ 64)%Z →
  ∃ shown xp',
    shorten num text xstart xoff available_width str n str_render xp
    = Completes (shown, xp')
    ∧ ((∃ len, (2 ≤ len ≤ n)%nat
               ∧ shown = candidate text str len
               ∧ fits_here shown = true
               ∧ ∀ len', (len < len' ≤ n)%nat →
                         fits_here (candidate text str len') = false)
       ∨ ((∀ len', (2 ≤ len' ≤ n)%nat → fits_here (candidate text str len') = false)
          ∧ xp' = xp
          ∧ shown = if decide (2 ≤ n)%nat then candidate text str 2 else str_render)).
Proof.
  intros Hn Hsize. revert str_render Hn.
  induction n as [|n IH]; intros str_render Hn.
  - exists str_render, xp. split; [done|]. right. split; [intros; lia|done].
  - destruct n as [|n].
    + exists str_render, xp. split; [done|]. right. split; [intros; lia|done].
    + destruct Hn as [Hn|Hn]; [done|].
      rewrite (shorten_step str n str_render xp Hn Hsize).
      destruct (fits_here (candidate text str (S (S n)))) eqn:Hfit.
      * eexists _, _. split; [reflexivity|]. left. exists (S (S n)).
        split; [lia|]. split; [done|]. split; [done|]. intros; lia.
      * destruct (IH (candidate text str (S (S n))) ltac:(lia))
          as (shown & xp' & Heq & Hcases).
        exists shown, xp'. split; [exact Heq|].
        destruct Hcases as [(len & Hr & Hs & Hf & Hlonger) | (Hnone & Hxp & Hs)].
        -- left. exists len. split; [lia|]. split; [done|]. split; [done|].
           intros len' Hl. destruct (decide (len' = S (S n))) as [->|]; [done|].
           apply Hlonger. lia.
        -- right. split; [|split; [done|]].
           ++ intros len' Hl. destruct (decide (len' = S (S n))) as [->|]; [done|].
              apply Hnone. lia.
           ++ rewrite Hs. destruct n as [|n]; [done|].
              rewrite !decide_True by lia. done.
Qed.

Lemma fit_text_completes (str : string) (width : Z) (xp : float num) :
  (Z.of_nat (String.length str) < 2 ^ 64)%Z →
  str ≠ "" →
  ∃ shown xp', fit_text num text xstart xoff available_width str width xp
               = Completes (shown, xp') ∧ shown ≠ "".
Proof.
  intros Hsize Hne. unfold fit_text.
  destruct (flt num available_width (float_of_int num width)); [|by eexists _, _].
  destruct (shorten_result str _ str xp (first_len_below_length str Hsize) Hsize)
    as (shown & xp' & Heq & Hcases).
  exists shown, xp'. split; [exact Heq|].
  assert (Hcand : ∀ len, candidate text str len ≠ "").
  { intros len. unfold candidate. destruct (trim_from_right text str); [|done].
    destruct (String.substring 0 len str); done. }
  destruct Hcases as [(len & _ & -> & _) | (_ & _ & ->)]; [apply Hcand|].
  case_decide; [apply Hcand | done].
Qed.

(** A label too wide for its place is cut to the longest candidate that
    fits, candidates running from all but one character down to two.  When
    not even the shortest fits, the shortest is drawn all the same, where
    the full text would have gone. *)
Theorem fit_text_longest_fitting (str : string) (width : Z) (xp : float num) :
  (3 ≤ String.length str)%nat →
  (Z.of_nat (String.length str) < 2 ^ 31)%Z →
  flt num available_width (float_of_int num width) = true →
  ∃ shown xp' len,
    fit_text num text xstart xoff available_width str width xp = Completes (shown, xp')
    ∧ (2 ≤ len ≤ String.length str - 1)%nat
    ∧ shown = candidate text str len
    ∧ (∀ len', (len < len' ≤ String.length str - 1)%nat →
               fits_here (candidate text str len') = false)
    ∧ (fits_here shown = true ∨ (len = 2%nat ∧ xp' = xp)).
Proof.
  intros Hmin Hmax Hwide. unfold fit_text. rewrite Hwide.
  rewrite to_size_t_small by lia. rewrite to_int_small by lia.
  replace (Z.to_nat (Z.of_nat (String.length str) - 1))
    with (String.length str - 1)%nat by lia.
  destruct (shorten_result str (String.length str - 1) str xp ltac:(lia) ltac:(lia))
    as (shown & xp' & Heq & Hcases).
  destruct Hcases as [(len & Hr & Hs & Hf & Hlonger) | (Hnone & Hxp & Hs)].
  - exists shown, xp', len. by eauto 10.
  - exists shown, xp', 2%nat. split; [exact Heq|]. split; [lia|].
    rewrite decide_True in Hs by lia. split; [done|].
    split; [intros; apply Hnone; lia|]. right. done.
Qed.

(** A label of one or two characters is never cut, however little room
    there is for it. *)
Theorem fit_text_short_text_kept (str : string) (width : Z) (xp : float num) :
  (String.length str ≤ 2)%nat →
  fit_text num text xstart xoff available_width str width xp = Completes (str, xp).
Proof.
  intros Hlen. unfold fit_text.
  destruct (flt num available_width (float_of_int num width)); [|done].
  destruct str as [|a [|b [|c s]]]; simpl in Hlen; try lia; reflexivity.
Qed.

End ShortenFacts.

Section RenderFacts.
Import ChannelRenderer.
Variable num : Numerics.
Variable text : Text.

Local Abbreviation F := (float_of_int num).

(** Where [place] puts the label and how much room it leaves, when the two
    additions it may make stay in range: at once nothing if the body is
    narrower than the label or 40 pixels; else pushed right of the left
    edge, or left of the right edge, or centred. *)
Lemma place_result (visleft visright : Z) (xstart xend xoff : float num)
    (str : string) (width : Z) :
  in_int (visleft + 5) = true →
  in_int (width + 5) = true →
  let min_width := if flt num (F width) (F 40) then F width else F 40 in
  let middle := fadd num xstart (fdiv num (fsub num xend xstart) (F 2)) in
  let whole := fsub num (fsub num xend xstart) (fmul num (F 2) xoff) in
  let centred := fsub num middle (F (width ÷ 2)) in
  let placed :=
    if flt num whole min_width then (middle, whole)
    else if flt num centred (F (visleft + 5)) then
      (F (visleft + 5), fsub num (fsub num xend (F (visleft + 5))) xoff)
    else if flt num (F visright) (fadd num (fadd num centred (F width)) (F 5)) then
      let x := fsub num (F visright) (fadd num (F (width + 5)) xoff) in
      let x := if flt num x xstart then fadd num xstart xoff else x in
      (x, if flt num xend (F visright) then fsub num (fsub num xend x) xoff
          else fsub num (fsub num (F visright) x) xoff)
    else (centred, whole) in
  place num visleft visright xstart xend xoff str width
  = Completes (if flt num (snd placed) min_width then "" else str,
               fst placed, snd placed).
Proof.
  intros Hleft Hwidth. unfold place, int_add. rewrite Hleft, Hwidth.
  repeat (cbv beta iota zeta; cbn [fst snd and_then];
          match goal with
          | |- context [if flt num ?a ?b then _ else _] => destruct (flt num a b) eqn:?
          end);
    first [reflexivity | congruence].
Qed.

Lemma fit_text_total (xstart xoff available_width : float num) (str : string)
    (width : Z) (xp : float num) :
  (Z.of_nat (String.length str) < 2 ^ 64)%Z →
  ∃ shown xp',
    fit_text num text xstart xoff available_width str width xp = Completes (shown, xp')
    ∧ (flt num available_width (F width) = false → shown = str ∧ xp' = xp).
Proof.
  intros Hsize. unfold fit_text.
  destruct (flt num available_width (F width)); [|by eexists _, _].
  destruct (shorten_result num text xstart xoff available_width str _ str xp
              (first_len_below_length str Hsize) Hsize)
    as (shown & xp' & Heq & _).
  by exists shown, xp'.
Qed.

(** [RenderComplexSignal] completes whenever the two [int] additions it may
    make stay in range; no [substr] in it throws.  The label is placed as
    [place_result] says.  It is given up when it is empty or the room left
    for it is less than its width or 40 pixels, whichever is smaller; the
    body is then filled at a quarter of the colour.  Otherwise the text
    that [fit_text] settles on is drawn in white at the position it
    settles on, between a [save] and a [restore]; that is the whole label
    where it was placed when the label is not wider than the room.  In
    either case the outline follows in the full colour, its right end cut
    at the visible edge, and [stroke] comes last. *)
Theorem RenderComplexSignal_draws (visleft visright : Z)
    (xstart xend xoff ybot ymid ytop : float num) (str : string)
    (color : Color (double num)) :
  (Z.of_nat (String.length str) < 2 ^ 64)%Z →
  in_int (visleft + 5) = true →
  in_int (fst (GetStringWidth text str) + 5) = true →
  let width := fst (GetStringWidth text str) in
  let sheight := snd (GetStringWidth text str) in
  let min_width := if flt num (F width) (F 40) then F width else F 40 in
  let middle := fadd num xstart (fdiv num (fsub num xend xstart) (F 2)) in
  let whole := fsub num (fsub num xend xstart) (fmul num (F 2) xoff) in
  let centred := fsub num middle (F (width ÷ 2)) in
  let placed :=
    if flt num whole min_width then (middle, whole)
    else if flt num centred (F (visleft + 5)) then
      (F (visleft + 5), fsub num (fsub num xend (F (visleft + 5))) xoff)
    else if flt num (F visright) (fadd num (fadd num centred (F width)) (F 5)) then
      let x := fsub num (F visright) (fadd num (F (width + 5)) xoff) in
      let x := if flt num x xstart then fadd num xstart xoff else x in
      (x, if flt num xend (F visright) then fsub num (fsub num xend x) xoff
          else fsub num (fsub num (F visright) x) xoff)
    else (centred, whole) in
  let xp := fst placed in
  let available_width := snd placed in
  ∃ shown xp',
    fit_text num text xstart xoff available_width str width xp = Completes (shown, xp')
    ∧ (flt num available_width (F width) = false → shown = str ∧ xp' = xp)
    ∧ let body :=
        if bool_decide (str = "") || flt num available_width min_width
        then filler num xstart xend ybot ytop color
        else label num shown xp' ymid sheight in
      RenderComplexSignal num text visleft visright xstart xend xoff ybot ymid ytop
                          str color
      = Completes (body ++ outline num visright xstart xend ybot ytop color)%list
      ∧ existsb is_fill (body ++ outline num visright xstart xend ybot ytop color)
        = negb (existsb shows_text
                  (body ++ outline num visright xstart xend ybot ytop color))
      ∧ last (body ++ outline num visright xstart xend ybot ytop color) = Some stroke.
Proof.
  intros Hsize Hleft Hwidth width sheight min_width middle whole centred placed xp
         available_width.
  destruct (fit_text_total xstart xoff available_width str width xp Hsize)
    as (shown & xp' & Hfit & Hwhole).
  exists shown, xp'. split; [exact Hfit|]. split; [exact Hwhole|].
  intros body.
  assert (Hlast : last (body ++ outline num visright xstart xend ybot ytop color)
                  = Some stroke).
  { unfold outline. rewrite app_comm_cons, app_assoc. apply last_snoc. }
  assert (Hrun : RenderComplexSignal num text visleft visright xstart xend xoff ybot
                                     ymid ytop str color
                 = Completes (body ++ outline num visright xstart xend ybot ytop color)%list).
  { unfold RenderComplexSignal.
    pose proof (place_result visleft visright xstart xend xoff str width Hleft Hwidth)
      as Hplace.
    cbv zeta in Hplace. fold min_width middle whole centred in Hplace.
    fold placed in Hplace. fold xp available_width in Hplace.
    subst width sheight. destruct (GetStringWidth text str) as [width sheight].
    cbn [fst snd] in *. rewrite Hplace. cbn [and_then]. subst body.
    destruct (flt num available_width min_width) eqn:Egive.
    - rewrite orb_true_r. rewrite bool_decide_eq_false_2 by (intros H; by apply H).
      reflexivity.
    - rewrite orb_false_r. destruct (decide (str = "")) as [->|Hne].
      + rewrite bool_decide_eq_false_2 by (intros H; by apply H).
        by rewrite bool_decide_eq_true_2.
      + rewrite bool_decide_eq_true_2 by done. rewrite Hfit. cbn [and_then].
        by rewrite bool_decide_eq_false_2. }
  split; [exact Hrun|]. split; [|exact Hlast].
  subst body. by destruct (bool_decide (str = "") || flt num available_width min_width).
Qed.

End RenderFacts.

Section TrimDirection.
Import ChannelRenderer.
Variable text : Text.

(** A label is cut from the left exactly when none of its characters is a
    lowercase letter and one of them is an underscore; in every other case,
    the empty label included, it is cut from the right. *)
Theorem trim_from_left_iff (str : string) :
  trim_from_right text str = false
  ↔ (∀ c, In c (String.list_ascii_of_string str) → islower text c = false)
    ∧ In underscore (String.list_ascii_of_string str).
Proof.
  unfold trim_from_right. rewrite negb_false_iff, andb_true_iff.
  assert (Hupper : is_all_upper text str = true
                   ↔ ∀ c, In c (String.list_ascii_of_string str) → islower text c = false).
  { induction str as [|a s IH]; simpl.
    - split; [intros _ c []|done].
    - rewrite andb_true_iff, negb_true_iff, IH. split.
      + intros [Ha Hs] c [<-|Hc]; auto.
      + intros H. split; [apply H; by left | intros c Hc; apply H; by right]. }
  assert (Hunder : ∀ s, has_underscore s = true
                        ↔ In underscore (String.list_ascii_of_string s)).
  { clear. intros s0. induction s0 as [|a s IH]; simpl.
    - split; [done|intros []].
    - destruct (Ascii.eqb a underscore) eqn:E.
      + apply Ascii.eqb_eq in E. split; [by left|done].
      + apply Ascii.eqb_neq in E. rewrite IH.
        split; [by right | intros [Ha|Hs]; [by destruct E | exact Hs]]. }
  by rewrite Hupper, Hunder.
Qed.

End TrimDirection.

Section RenderWitnesses.
Import ChannelRenderer RenderExamples.

Lemma trim_from_left_iff_witness :
  trim_from_right fixed_pitch "DATA_VALID" = false
  ∧ In underscore (String.list_ascii_of_string "DATA_VALID")
  ∧ trim_from_right fixed_pitch "Data_Valid" = true.
Proof.
  assert (H1 : trim_from_right fixed_pitch "DATA_VALID" = false) by reflexivity.
  split; [exact H1|].
  split; [exact (proj2 (proj1 (trim_from_left_iff fixed_pitch "DATA_VALID") H1))|].
  reflexivity.
Defined.

Lemma shortened_keeps_witness :
  (4 < String.length "DATA_VALID")%nat
  ∧ (Z.of_nat (String.length "DATA_VALID") < 2 ^ 64)%Z
  ∧ trim_from_right fixed_pitch "DATA_VALID" = false
  ∧ ∃ s, shortened fixed_pitch "DATA_VALID" 4 = Completes s
         ∧ s = "...VALID" ∧ String.length s = 8%nat.
Proof.
  assert (H1 : (4 < String.length "DATA_VALID")%nat) by (simpl; lia).
  assert (H2 : (Z.of_nat (String.length "DATA_VALID") < 2 ^ 64)%Z) by reflexivity.
  assert (H3 : trim_from_right fixed_pitch "DATA_VALID" = false) by reflexivity.
  split; [exact H1|]. split; [exact H2|]. split; [exact H3|].
  destruct (shortened_keeps fixed_pitch "DATA_VALID" 4 H1 H2) as (s & Hs & _ & Hleft).
  exists s. split; [exact Hs|]. exact (Hleft H3).
Defined.

Lemma fit_text_longest_fitting_witness :
  (3 ≤ String.length "payload")%nat
  ∧ (Z.of_nat (String.length "payload") < 2 ^ 31)%Z
  ∧ flt exact (px 45) (float_of_int exact 49) = true
  ∧ fit_text exact fixed_pitch (px 100) (px 5) (px 45) "payload" 49 (px 110)
    = Completes ("pay...", QArith_base.Qmake 223 2)
  ∧ ∃ shown xp' len,
      fit_text exact fixed_pitch (px 100) (px 5) (px 45) "payload" 49 (px 110)
      = Completes (shown, xp')
      ∧ (2 ≤ len ≤ String.length "payload" - 1)%nat
      ∧ shown = candidate fixed_pitch "payload" len.
Proof.
  assert (H1 : (3 ≤ String.length "payload")%nat) by (simpl; lia).
  assert (H2 : (Z.of_nat (String.length "payload") < 2 ^ 31)%Z) by reflexivity.
  assert (H3 : flt exact (px 45) (float_of_int exact 49) = true) by reflexivity.
  split; [exact H1|]. split; [exact H2|]. split; [exact H3|].
  split; [reflexivity|].
  destruct (fit_text_longest_fitting exact fixed_pitch (px 100) (px 5) (px 45)
              "payload" 49 (px 110) H1 H2 H3)
    as (shown & xp' & len & Heq & Hr & Hs & _).
  exists shown, xp', len. split; [exact Heq|]. split; [exact Hr | exact Hs].
Defined.

Lemma fit_text_short_text_kept_witness :
  (String.length "ab" ≤ 2)%nat
  ∧ fit_text exact fixed_pitch (px 100) (px 5) (px 3) "ab" 14 (px 110)
    = Completes ("ab", px 110).
Proof.
  assert (H1 : (String.length "ab" ≤ 2)%nat) by (simpl; lia).
  split; [exact H1|].
  exact (fit_text_short_text_kept exact fixed_pitch (px 100) (px 5) (px 3) "ab" 14
           (px 110) H1).
Defined.

Lemma RenderComplexSignal_draws_witness :
  (Z.of_nat (String.length "DATA_VALID") < 2 ^ 64)%Z
  ∧ in_int (0 + 5) = true
  ∧ in_int (fst (GetStringWidth fixed_pitch "DATA_VALID") + 5) = true
  ∧ RenderComplexSignal exact fixed_pitch 0 800 (px 100) (px 300) (px 5)
                        (px 40) (px 30) (px 20) "DATA_VALID" grey
    = Completes (label exact "DATA_VALID" (QArith_base.Qmake 330 2) (px 30) 14
                 ++ outline exact 800 (px 100) (px 300) (px 40) (px 20) grey)%list
  ∧ ∃ shown xp',
      fit_text exact fixed_pitch (px 100) (px 5) (QArith_base.Qmake 190 1)
               "DATA_VALID" 70 (QArith_base.Qmake 330 2)
      = Completes (shown, xp').
Proof.
  assert (H1 : (Z.of_nat (String.length "DATA_VALID") < 2 ^ 64)%Z) by reflexivity.
  assert (H2 : in_int (0 + 5) = true) by reflexivity.
  assert (H3 : in_int (fst (GetStringWidth fixed_pitch "DATA_VALID") + 5) = true)
    by reflexivity.
  split; [exact H1|]. split; [exact H2|]. split; [exact H3|].
  split; [reflexivity|].
  destruct (RenderComplexSignal_draws exact fixed_pitch 0 800 (px 100) (px 300) (px 5)
              (px 40) (px 30) (px 20) "DATA_VALID" grey H1 H2 H3)
    as (shown & xp' & Hfit & _).
  exists shown, xp'. exact Hfit.
Defined.

End RenderWitnesses.

(** * Two threads making any two calls *)

Section ThreadFacts.
Import PipelineCacheManager Calls Threads.

Implicit Types (c : call) (b : inside) (p : pc) (m : t) (w : World) (cfg : config)
  (i : tid) (r : reply).

Lemma finish_more fuel c p m w x :
  finish fuel c p m w = Some x → finish (S fuel) c p m w = Some x.
Proof.
  revert p m w. induction fuel as [|fuel IH]; intros p m w.
  - destruct p; simpl; try done.
  - destruct p as [|b|r|r|]; try done.
    cbn [finish]. destruct (advance c b m w) as [[[p' m'] w']|]; [|done].
    apply IH.
Qed.

Lemma advance_keeps_finish c b m w p' m' w' x :
  advance c b m w = Some (p', m', w') →
  finish 3 c (Inside b) m w = Some x →
  finish 3 c p' m' w' = Some x.
Proof.
  intros Hadv Hfin. cbn [finish] in Hfin. rewrite Hadv in Hfin.
  by apply finish_more.
Qed.

(** Run without interruption from its first statement, the body of a call
    ends as the method does. *)
Lemma first_runs c b m w :
  has_value c = true →
  first c = Some b →
  ∃ r m' w', finish 3 c (Inside b) m w = Some (r, m', w')
             ∧ exec c m w = mkRet (Returns r) m' w'.
Proof.
  intros Hv Hf. destruct c as [|key|key [words|]|key| |]; simpl in *; try done;
    injection Hf as <-; cbn [finish advance].
  - by eexists _, _, _.
  - unfold LookupRaw. destruct (m_rawDataCache m !! key); by eexists _, _, _.
  - by eexists _, _, _.
  - unfold Lookup. destruct (m_vkCache m !! key); simpl; by eexists _, _, _.
Qed.

Lemma unlocked_ran c m w :
  first c = None → exec c m w = mkRet (Returns ReplyVoid) m w.
Proof. by destruct c. Qed.

Lemma runs_first c b m w mu p1 p2 :
  has_value c = true → first c = Some b →
  runs c (Inside b) m w (mkConfig m w mu p1 p2).
Proof. intros Hv Hf. apply (first_runs c b m w Hv Hf). Qed.

Lemma runs_advance c b m0 w0 m w mu p1 p2 :
  runs c (Inside b) m0 w0 (mkConfig m w mu p1 p2) →
  ∃ p' m' w', advance c b m w = Some (p', m', w')
              ∧ (∀ mu' q1 q2, runs c p' m0 w0 (mkConfig m' w' mu' q1 q2))
              ∧ ((∃ b', p' = Inside b') ∨ (∃ r, p' = Leaving r)).
Proof.
  intros (r & m' & w' & Hfin & Hexec). cbn [mgr world] in Hfin.
  destruct (advance c b m w) as [[[p' m1] w1]|] eqn:Hadv.
  - exists p', m1, w1. split; [done|].
    pose proof (advance_keeps_finish _ _ _ _ _ _ _ _ Hadv Hfin) as Hfin'.
    split.
    + intros mu' q1 q2. by exists r, m', w'.
    + destruct p' as [|b'|r'|r'|]; simpl in Hfin'; try done; eauto.
  - cbn [finish] in Hfin. by rewrite Hadv in Hfin.
Qed.

Lemma runs_leaving c r m0 w0 cfg :
  runs c (Leaving r) m0 w0 cfg → ran c r m0 w0 (mgr cfg) (world cfg).
Proof. intros (r' & m' & w' & Hfin & Hexec). simpl in Hfin. by injection Hfin as <- <- <-. Qed.

Lemma runs_same_state c p m0 w0 m w mu p1 p2 mu' q1 q2 :
  runs c p m0 w0 (mkConfig m w mu p1 p2) → runs c p m0 w0 (mkConfig m w mu' q1 q2).
Proof. done. Qed.

Ltac moved H := injection H as <-; unfold agrees in *; cbn [pc1 pc2 m_mutex mgr world at_pc] in *.

Lemma step_agrees c1 c2 m0 w0 i cfg cfg' :
  has_value c1 = true → has_value c2 = true →
  agrees c1 c2 m0 w0 cfg →
  step c1 c2 i cfg = Some cfg' →
  agrees c1 c2 m0 w0 cfg'.
Proof.
  intros Hv1 Hv2 Hag Hstep. destruct cfg as [m w mu p1 p2].
  destruct i; unfold step, step_of in Hstep; cbn [pc_of pc1 pc2 m_mutex mgr world] in Hstep.
  - destruct p1 as [|b|r|r|]; [| | |done..].
    + destruct (first c1) as [b|] eqn:F.
      * destruct mu; [done|]. moved Hstep.
        destruct p2 as [|b2|r2|r2|]; try (by destruct Hag).
        -- destruct Hag as (_ & -> & ->). split; [done|]. by apply runs_first.
        -- destruct Hag as (_ & Hran). split; [done|]. exists m, w.
           split; [done|]. by apply runs_first.
      * moved Hstep. pose proof (unlocked_ran c1 m0 w0 F) as Hnop.
        destruct p2 as [|b2|r2|r2|]; try done.
        -- destruct Hag as (Hmu & -> & ->). done.
        -- destruct Hag as (Hmu & Hruns). split; [done|]. by exists m0, w0.
        -- destruct Hag as (Hmu & Hruns). split; [done|]. by exists m0, w0.
        -- destruct Hag as (Hmu & Hran). split; [done|]. right. exists m, w.
           split; [done|]. by apply unlocked_ran.
    + destruct p2 as [|b2|r2|r2|]; try done.
      * destruct Hag as (Hmu & Hruns).
        destruct (runs_advance _ _ _ _ _ _ _ _ _ Hruns) as (p' & m' & w' & Hadv & Hnext & Hp').
        rewrite Hadv in Hstep. moved Hstep.
        destruct Hp' as [[b' ->] | [r' ->]]; split; auto.
      * destruct Hag as (Hmu & m2 & w2 & Hran & Hruns).
        destruct (runs_advance _ _ _ _ _ _ _ _ _ Hruns) as (p' & m' & w' & Hadv & Hnext & Hp').
        rewrite Hadv in Hstep. moved Hstep.
        destruct Hp' as [[b' ->] | [r' ->]]; (split; [done|]); exists m2, w2; auto.
    + moved Hstep. destruct p2 as [|b2|r2|r2|]; try done.
      * destruct Hag as (Hmu & Hruns). split; [done|]. by apply (runs_leaving _ _ _ _ _ Hruns).
      * destruct Hag as (Hmu & m2 & w2 & Hran & Hruns). split; [done|]. right.
        exists m2, w2. split; [done|]. by apply (runs_leaving _ _ _ _ _ Hruns).
  - destruct p2 as [|b|r|r|]; [| | |done..].
    + destruct (first c2) as [b|] eqn:F.
      * destruct mu; [done|]. moved Hstep.
        destruct p1 as [|b1|r1|r1|]; try (by destruct Hag).
        -- destruct Hag as (_ & -> & ->). split; [done|]. by apply runs_first.
        -- destruct Hag as (_ & Hran). split; [done|]. exists m, w.
           split; [done|]. by apply runs_first.
      * moved Hstep. pose proof (unlocked_ran c2 m0 w0 F) as Hnop.
        destruct p1 as [|b1|r1|r1|]; try done.
        -- destruct Hag as (Hmu & -> & ->). done.
        -- destruct Hag as (Hmu & Hruns). split; [done|]. by exists m0, w0.
        -- destruct Hag as (Hmu & Hruns). split; [done|]. by exists m0, w0.
        -- destruct Hag as (Hmu & Hran). split; [done|]. left. exists m, w.
           split; [done|]. by apply unlocked_ran.
    + destruct p1 as [|b1|r1|r1|]; try done.
      * destruct Hag as (Hmu & Hruns).
        destruct (runs_advance _ _ _ _ _ _ _ _ _ Hruns) as (p' & m' & w' & Hadv & Hnext & Hp').
        rewrite Hadv in Hstep. moved Hstep.
        destruct Hp' as [[b' ->] | [r' ->]]; split; auto.
      * destruct Hag as (Hmu & m1 & w1 & Hran & Hruns).
        destruct (runs_advance _ _ _ _ _ _ _ _ _ Hruns) as (p' & m' & w' & Hadv & Hnext & Hp').
        rewrite Hadv in Hstep. moved Hstep.
        destruct Hp' as [[b' ->] | [r' ->]]; (split; [done|]); exists m1, w1; auto.
    + moved Hstep. destruct p1 as [|b1|r1|r1|]; try done.
      * destruct Hag as (Hmu & Hruns). split; [done|]. by apply (runs_leaving _ _ _ _ _ Hruns).
      * destruct Hag as (Hmu & m1 & w1 & Hran & Hruns). split; [done|]. left.
        exists m1, w1. split; [done|]. by apply (runs_leaving _ _ _ _ _ Hruns).
Qed.

Lemma run_agrees c1 c2 m0 w0 sched cfg :
  has_value c1 = true → has_value c2 = true →
  agrees c1 c2 m0 w0 cfg → agrees c1 c2 m0 w0 (run c1 c2 sched cfg).
Proof.
  intros Hv1 Hv2. revert cfg. induction sched as [|i sched IH]; intros cfg Hag; [done|].
  simpl. destruct (step c1 c2 i cfg) as [cfg'|] eqn:E; [|by apply IH].
  apply IH. by apply (step_agrees c1 c2 m0 w0 i cfg).
Qed.

Lemma threads_run_app c1 c2 sched1 sched2 cfg :
  run c1 c2 (sched1 ++ sched2) cfg = run c1 c2 sched2 (run c1 c2 sched1 cfg).
Proof.
  revert cfg. induction sched1 as [|i sched1 IH]; intros cfg; simpl; [done|].
  by destruct (step c1 c2 i cfg).
Qed.

Lemma advance_decreases c b m w p' m' w' :
  advance c b m w = Some (p', m', w') → (remaining p' < remaining (Inside b))%nat.
Proof.
  destruct c as [|key|key [words|]|key| |], b; simpl; try done;
    try (intros [= <- <- <-]; simpl; lia).
  - destruct (m_rawDataCache m !! key); intros [= <- <- <-]; simpl; lia.
  - destruct (m_vkCache m !! key); intros [= <- <- <-]; simpl; lia.
Qed.

Lemma step_of_decreases c i cfg cfg' :
  step_of c i cfg = Some cfg' →
  (remaining (pc1 cfg') + remaining (pc2 cfg') < remaining (pc1 cfg) + remaining (pc2 cfg))%nat.
Proof.
  destruct cfg as [m w mu p1 p2]. unfold step_of.
  destruct i; cbn [pc_of pc1 pc2 m_mutex mgr world].
  - destruct p1 as [|b|r|r|]; try done.
    + destruct (first c) as [b|].
      * destruct mu; [done|]. intros [= <-]. simpl. destruct b; simpl; lia.
      * intros [= <-]. simpl. lia.
    + destruct (advance c b m w) as [[[p' m'] w']|] eqn:E; [|done].
      intros [= <-]. cbn [at_pc pc1 pc2].
      pose proof (advance_decreases _ _ _ _ _ _ _ E). lia.
    + intros [= <-]. simpl. lia.
  - destruct p2 as [|b|r|r|]; try done.
    + destruct (first c) as [b|].
      * destruct mu; [done|]. intros [= <-]. simpl. destruct b; simpl; lia.
      * intros [= <-]. simpl. lia.
    + destruct (advance c b m w) as [[[p' m'] w']|] eqn:E; [|done].
      intros [= <-]. cbn [at_pc pc1 pc2].
      pose proof (advance_decreases _ _ _ _ _ _ _ E). lia.
    + intros [= <-]. simpl. lia.
Qed.

Lemma running_can_step c i p m0 w0 cfg :
  pc_of i cfg = p →
  (∃ b, p = Inside b) ∨ (∃ r, p = Leaving r) →
  runs c p m0 w0 cfg →
  ∃ cfg', step_of c i cfg = Some cfg'.
Proof.
  intros Hp Hcase Hruns. unfold step_of. rewrite Hp.
  destruct Hcase as [[b ->] | [r ->]]; [|by eexists].
  destruct cfg as [m w mu p1 p2].
  destruct (runs_advance _ _ _ _ _ _ _ _ _ Hruns) as (p' & m' & w' & Hadv & _).
  cbn [mgr world]. rewrite Hadv. by eexists.
Qed.

(** While a call is unfinished, some thread can move. *)
Lemma threads_no_deadlock c1 c2 m0 w0 cfg :
  agrees c1 c2 m0 w0 cfg → finished cfg = false →
  ∃ i cfg', step c1 c2 i cfg = Some cfg'.
Proof.
  intros Hag Hfin. destruct cfg as [m w mu p1 p2].
  unfold agrees, finished in *. cbn [pc1 pc2 m_mutex mgr world] in *.
  destruct p1 as [|b1|r1|r1|], p2 as [|b2|r2|r2|]; try done.
  - destruct Hag as (-> & _). exists T1. unfold step, step_of. simpl.
    destruct (first c1); by eexists.
  - destruct Hag as (_ & Hruns). exists T2.
    apply (running_can_step c2 T2 (Inside b2) m0 w0); eauto.
  - exists T2. unfold step, step_of. simpl. by eexists.
  - destruct Hag as (-> & _). exists T1. unfold step, step_of. simpl.
    destruct (first c1); by eexists.
  - destruct Hag as (_ & Hruns). exists T1.
    apply (running_can_step c1 T1 (Inside b1) m0 w0); eauto.
  - destruct Hag as (_ & m2 & w2 & _ & Hruns). exists T1.
    apply (running_can_step c1 T1 (Inside b1) m2 w2); eauto.
  - exists T1. unfold step, step_of. simpl. by eexists.
  - exists T1. unfold step, step_of. simpl. by eexists.
  - destruct Hag as (-> & _). exists T2. unfold step, step_of. simpl.
    destruct (first c2); by eexists.
  - destruct Hag as (_ & m1 & w1 & _ & Hruns). exists T2.
    apply (running_can_step c2 T2 (Inside b2) m1 w1); eauto.
  - exists T2. unfold step, step_of. simpl. by eexists.
Qed.

Lemma threads_can_finish c1 c2 m0 w0 (fuel : nat) cfg :
  has_value c1 = true → has_value c2 = true →
  agrees c1 c2 m0 w0 cfg →
  (remaining (pc1 cfg) + remaining (pc2 cfg) ≤ fuel)%nat →
  ∃ more, (length more ≤ fuel)%nat ∧ finished (run c1 c2 more cfg) = true.
Proof.
  intros Hv1 Hv2. revert cfg. induction fuel as [|fuel IH]; intros cfg Hag Hfuel.
  - exists []. split; [done|]. simpl.
    destruct cfg as [m w mu p1 p2]. unfold agrees, finished in *. simpl in *.
    destruct p1 as [|[]| | |], p2 as [|[]| | |]; simpl in *; try lia; done.
  - destruct (finished cfg) eqn:Hfin.
    + exists []. split; [simpl; lia | done].
    + destruct (threads_no_deadlock c1 c2 m0 w0 cfg Hag Hfin) as (i & cfg' & Hstep).
      assert (Hdec : (remaining (pc1 cfg') + remaining (pc2 cfg')
                      < remaining (pc1 cfg) + remaining (pc2 cfg))%nat).
      { destruct i; by apply (step_of_decreases _ _ _ _ Hstep). }
      destruct (IH cfg' (step_agrees c1 c2 m0 w0 i cfg cfg' Hv1 Hv2 Hag Hstep))
        as (more & Hlen & Hdone); [lia|].
      exists (i :: more). split; [simpl; lia|]. simpl. by rewrite Hstep.
Qed.

Lemma finished_in_some_order c1 c2 m0 w0 cfg r1 r2 :
  agrees c1 c2 m0 w0 cfg → pc1 cfg = Done r1 → pc2 cfg = Done r2 →
  (∃ m1 w1, exec c1 m0 w0 = mkRet (Returns r1) m1 w1
            ∧ exec c2 m1 w1 = mkRet (Returns r2) (mgr cfg) (world cfg))
  ∨ (∃ m2 w2, exec c2 m0 w0 = mkRet (Returns r2) m2 w2
              ∧ exec c1 m2 w2 = mkRet (Returns r1) (mgr cfg) (world cfg)).
Proof.
  intros Hag H1 H2. unfold agrees in Hag. rewrite H1, H2 in Hag.
  by destruct Hag as (_ & Horder).
Qed.

Lemma start_agrees c1 c2 this w : agrees c1 c2 this w (start this w).
Proof. by unfold agrees, start. Qed.

(** Two calls made at once by two threads have the effect of the same two
    calls made one after the other, in one order or the other: when both
    have returned, the manager, the world and both return values are those
    of [c1] then [c2] or of [c2] then [c1].  No thread crashes, and the two
    calls can always be run on until both have returned. *)
Theorem calls_linearizable (c1 c2 : call) (this : t) (w : World) (sched : list tid) :
  has_value c1 = true → has_value c2 = true →
  let cfg := run c1 c2 sched (start this w) in
  (∀ r1 r2, pc1 cfg = Done r1 → pc2 cfg = Done r2 →
     (∃ m1 w1, exec c1 this w = mkRet (Returns r1) m1 w1
               ∧ exec c2 m1 w1 = mkRet (Returns r2) (mgr cfg) (world cfg))
     ∨ (∃ m2 w2, exec c2 this w = mkRet (Returns r2) m2 w2
                 ∧ exec c1 m2 w2 = mkRet (Returns r1) (mgr cfg) (world cfg)))
  ∧ pc1 cfg ≠ Crashed ∧ pc2 cfg ≠ Crashed
  ∧ ∃ more, (length more ≤ 10)%nat
            ∧ finished (run c1 c2 (sched ++ more) (start this w)) = true.
Proof.
  intros Hv1 Hv2 cfg.
  assert (Hag : agrees c1 c2 this w cfg).
  { apply run_agrees; [done..|]. by unfold agrees, start. }
  assert (Hfuel : (remaining (pc1 cfg) + remaining (pc2 cfg) ≤ 10)%nat).
  { destruct (pc1 cfg) as [|[]| | |], (pc2 cfg) as [|[]| | |]; simpl; lia. }
  destruct (threads_can_finish c1 c2 this w 10 cfg Hv1 Hv2 Hag Hfuel) as (more & Hlen & Hdone).
  split; [|split; [|split]].
  - intros r1 r2 H1 H2. unfold agrees in Hag. rewrite H1, H2 in Hag.
    by destruct Hag as (_ & Horder).
  - intros H1. unfold agrees in Hag. rewrite H1 in Hag. by destruct (pc2 cfg).
  - intros H2. unfold agrees in Hag. rewrite H2 in Hag. by destruct (pc1 cfg).
  - exists more. split; [done|]. by rewrite threads_run_app.
Qed.

Lemma calls_linearizable_witness :
  has_value CallClear = true
  ∧ has_value (CallLookup "X") = true
  ∧ pc1 (run CallClear (CallLookup "X") Examples.interleaved
             (start Examples.warm Examples.warm_world)) = Done ReplyVoid
  ∧ pc2 (run CallClear (CallLookup "X") Examples.interleaved
             (start Examples.warm Examples.warm_world))
    = Done (ReplyPipeline (Some (mkPipelineCache 1)))
  ∧ ((∃ m1 w1, exec CallClear Examples.warm Examples.warm_world
               = mkRet (Returns ReplyVoid) m1 w1
               ∧ exec (CallLookup "X") m1 w1
                 = mkRet (Returns (ReplyPipeline (Some (mkPipelineCache 1))))
                         (mgr (run CallClear (CallLookup "X") Examples.interleaved
                                   (start Examples.warm Examples.warm_world)))
                         (world (run CallClear (CallLookup "X") Examples.interleaved
                                     (start Examples.warm Examples.warm_world))))
     ∨ (∃ m2 w2, exec (CallLookup "X") Examples.warm Examples.warm_world
                 = mkRet (Returns (ReplyPipeline (Some (mkPipelineCache 1)))) m2 w2
                 ∧ exec CallClear m2 w2
                   = mkRet (Returns ReplyVoid)
                           (mgr (run CallClear (CallLookup "X") Examples.interleaved
                                     (start Examples.warm Examples.warm_world)))
                           (world (run CallClear (CallLookup "X") Examples.interleaved
                                       (start Examples.warm Examples.warm_world))))).
Proof.
  assert (Hv1 : has_value CallClear = true) by reflexivity.
  assert (Hv2 : has_value (CallLookup "X") = true) by reflexivity.
  assert (H1 : pc1 (run CallClear (CallLookup "X") Examples.interleaved
                        (start Examples.warm Examples.warm_world)) = Done ReplyVoid)
    by reflexivity.
  assert (H2 : pc2 (run CallClear (CallLookup "X") Examples.interleaved
                        (start Examples.warm Examples.warm_world))
               = Done (ReplyPipeline (Some (mkPipelineCache 1)))) by reflexivity.
  split; [exact Hv1|]. split; [exact Hv2|]. split; [exact H1|]. split; [exact H2|].
  exact (proj1 (calls_linearizable CallClear (CallLookup "X") Examples.warm
                  Examples.warm_world Examples.interleaved Hv1 Hv2) _ _ H1 H2).
Defined.

(** No lost update: when two threads store blobs under different keys at
    once, then, once both calls have returned, both blobs are in the cache,
    every other key holds what it held, and the pipeline map is as it was. *)
Theorem concurrent_stores_both_kept (k1 k2 : string) (v1 v2 : blob) (this : t)
    (w : World) (sched : list tid) :
  k1 ≠ k2 →
  let cfg := run (CallStoreRaw k1 (Some v1)) (CallStoreRaw k2 (Some v2)) sched
                 (start this w) in
  finished cfg = true →
  (∀ w', result (LookupRaw k1 (mgr cfg) w') = Returns (Some v1)
         ∧ result (LookupRaw k2 (mgr cfg) w') = Returns (Some v2))
  ∧ (∀ k, k ≠ k1 → k ≠ k2 → m_rawDataCache (mgr cfg) !! k = m_rawDataCache this !! k)
  ∧ m_vkCache (mgr cfg) = m_vkCache this.
Proof.
  intros Hne cfg Hfin.
  assert (Hag : agrees (CallStoreRaw k1 (Some v1)) (CallStoreRaw k2 (Some v2)) this w cfg)
    by (apply run_agrees; [done..|apply start_agrees]).
  pose proof (λ r1 r2, finished_in_some_order _ _ _ _ _ r1 r2 Hag) as Hlin.
  unfold finished in Hfin.
  destruct (pc1 cfg) as [| | |r1|] eqn:E1; try done.
  destruct (pc2 cfg) as [| | |r2|] eqn:E2; try done.
  assert (Hraw : m_rawDataCache (mgr cfg) !! k1 = Some (Some v1)
                 ∧ m_rawDataCache (mgr cfg) !! k2 = Some (Some v2)
                 ∧ (∀ k, k ≠ k1 → k ≠ k2 →
                         m_rawDataCache (mgr cfg) !! k = m_rawDataCache this !! k)
                 ∧ m_vkCache (mgr cfg) = m_vkCache this).
  { destruct (Hlin r1 r2 eq_refl eq_refl)
      as [(m1 & w1 & Ha & Hb) | (m2 & w2 & Ha & Hb)];
      simpl in Ha, Hb; injection Ha as _ <- _; injection Hb as _ Hm _;
      rewrite <- Hm; simpl; repeat split.
    - rewrite lookup_insert_ne by done. apply lookup_insert_eq.
    - apply lookup_insert_eq.
    - intros k Hk1 Hk2. by rewrite !lookup_insert_ne.
    - apply lookup_insert_eq.
    - rewrite lookup_insert_ne by done. apply lookup_insert_eq.
    - intros k Hk1 Hk2. by rewrite !lookup_insert_ne. }
  destruct Hraw as (H1 & H2 & Hrest & Hvk).
  split; [|split; [exact Hrest | exact Hvk]].
  intros w'. destruct (LookupRaw_reads k1 (mgr cfg) w') as [-> _].
  destruct (LookupRaw_reads k2 (mgr cfg) w') as [-> _].
  by rewrite H1, H2.
Qed.

Lemma concurrent_stores_both_kept_witness :
  "k1" ≠ "k2"
  ∧ finished (run (CallStoreRaw "k1" (Some [1; 2; 3])) (CallStoreRaw "k2" (Some [4; 5]))
                  Examples.interleaved (start fresh Examples.quiet)) = true
  ∧ result (LookupRaw "k1"
              (mgr (run (CallStoreRaw "k1" (Some [1; 2; 3]))
                        (CallStoreRaw "k2" (Some [4; 5]))
                        Examples.interleaved (start fresh Examples.quiet)))
              Examples.quiet) = Returns (Some [1; 2; 3])
  ∧ result (LookupRaw "k2"
              (mgr (run (CallStoreRaw "k1" (Some [1; 2; 3]))
                        (CallStoreRaw "k2" (Some [4; 5]))
                        Examples.interleaved (start fresh Examples.quiet)))
              Examples.quiet) = Returns (Some [4; 5]).
Proof.
  assert (Hne : "k1" ≠ "k2") by discriminate.
  assert (Hfin : finished (run (CallStoreRaw "k1" (Some [1; 2; 3]))
                               (CallStoreRaw "k2" (Some [4; 5]))
                               Examples.interleaved (start fresh Examples.quiet)) = true)
    by reflexivity.
  split; [exact Hne|]. split; [exact Hfin|].
  exact (proj1 (concurrent_stores_both_kept "k1" "k2" [1; 2; 3] [4; 5] fresh
                  Examples.quiet Examples.interleaved Hne Hfin) Examples.quiet).
Defined.

(** [Clear] is never seen half done.  When one thread clears the cache
    while another looks up the pipeline cache for [k], then, once both have
    returned, the blob map is empty and the pipeline map is either empty or
    holds only [k], with the object that [Lookup] returned. *)
Theorem Clear_with_Lookup_atomic (k : string) (this : t) (w : World)
    (sched : list tid) :
  let cfg := run CallClear (CallLookup k) sched (start this w) in
  ∀ ret : shared_ptr PipelineCache,
    pc1 cfg = Done ReplyVoid → pc2 cfg = Done (ReplyPipeline ret) →
    m_rawDataCache (mgr cfg) = ∅
    ∧ (m_vkCache (mgr cfg) = ∅ ∨ m_vkCache (mgr cfg) = {[k := ret]}).
Proof.
  intros cfg ret H1 H2.
  assert (Hag : agrees CallClear (CallLookup k) this w cfg)
    by (apply run_agrees; [done..|apply start_agrees]).
  destruct (finished_in_some_order _ _ _ _ _ _ _ Hag H1 H2) as [(m1 & w1 & Ha & Hb) | (m2 & w2 & Ha & Hb)].
  - simpl in Ha. injection Ha as <- <-. simpl in Hb.
    rewrite (Lookup_miss k (mk (m_cacheRootDir this) ∅ ∅) w (lookup_empty k)) in Hb.
    simpl in Hb. injection Hb as <- <- _. simpl. rewrite insert_empty. auto.
  - simpl in Hb. injection Hb as <- _. simpl. auto.
Qed.

Lemma Clear_with_Lookup_atomic_witness :
  pc1 (run CallClear (CallLookup "X") Examples.interleaved
           (start Examples.warm Examples.warm_world)) = Done ReplyVoid
  ∧ pc2 (run CallClear (CallLookup "X") Examples.interleaved
             (start Examples.warm Examples.warm_world))
    = Done (ReplyPipeline (Some (mkPipelineCache 1)))
  ∧ m_rawDataCache (mgr (run CallClear (CallLookup "X") Examples.interleaved
                             (start Examples.warm Examples.warm_world))) = ∅.
Proof.
  assert (H1 : pc1 (run CallClear (CallLookup "X") Examples.interleaved
                        (start Examples.warm Examples.warm_world)) = Done ReplyVoid)
    by reflexivity.
  assert (H2 : pc2 (run CallClear (CallLookup "X") Examples.interleaved
                        (start Examples.warm Examples.warm_world))
               = Done (ReplyPipeline (Some (mkPipelineCache 1)))) by reflexivity.
  split; [exact H1|]. split; [exact H2|].
  exact (proj1 (Clear_with_Lookup_atomic "X" Examples.warm Examples.warm_world
                  Examples.interleaved _ H1 H2)).
Defined.

(** Two threads looking up a key that is already registered both get the
    registered object; nothing is created and the manager is left as it
    was. *)
Theorem concurrent_Lookups_of_registered_key (k : string)
    (p : shared_ptr PipelineCache) (this : t) (w : World) (sched : list tid) :
  m_vkCache this !! k = Some p →
  let cfg := run (CallLookup k) (CallLookup k) sched (start this w) in
  finished cfg = true →
  pc1 cfg = Done (ReplyPipeline p) ∧ pc2 cfg = Done (ReplyPipeline p)
  ∧ mgr cfg = this
  ∧ w_pipelineCaches (world cfg) = w_pipelineCaches w.
Proof.
  intros Hk cfg Hfin.
  assert (Hag : agrees (CallLookup k) (CallLookup k) this w cfg)
    by (apply run_agrees; [done..|apply start_agrees]).
  unfold finished in Hfin.
  destruct (pc1 cfg) as [| | |r1|] eqn:E1; try done.
  destruct (pc2 cfg) as [| | |r2|] eqn:E2; try done.
  destruct (finished_in_some_order _ _ _ _ _ _ _ Hag E1 E2)
    as [(m1 & w1 & Ha & Hb) | (m1 & w1 & Ha & Hb)];
    simpl in Ha, Hb; rewrite (Lookup_hit _ _ _ _ Hk) in Ha; simpl in Ha;
    injection Ha as <- <- <-;
    rewrite (Lookup_hit _ _ _ _ Hk) in Hb; simpl in Hb;
    injection Hb as <- <- <-; done.
Qed.

Lemma concurrent_Lookups_of_registered_key_witness :
  m_vkCache Examples.warm !! "X" = Some (Some (mkPipelineCache 0))
  ∧ finished (run (CallLookup "X") (CallLookup "X") Examples.interleaved
                  (start Examples.warm Examples.warm_world)) = true
  ∧ pc1 (run (CallLookup "X") (CallLookup "X") Examples.interleaved
             (start Examples.warm Examples.warm_world))
    = Done (ReplyPipeline (Some (mkPipelineCache 0)))
  ∧ pc2 (run (CallLookup "X") (CallLookup "X") Examples.interleaved
             (start Examples.warm Examples.warm_world))
    = Done (ReplyPipeline (Some (mkPipelineCache 0))).
Proof.
  assert (Hk : m_vkCache Examples.warm !! "X" = Some (Some (mkPipelineCache 0)))
    by reflexivity.
  assert (Hfin : finished (run (CallLookup "X") (CallLookup "X") Examples.interleaved
                               (start Examples.warm Examples.warm_world)) = true)
    by reflexivity.
  destruct (concurrent_Lookups_of_registered_key "X" _ Examples.warm Examples.warm_world
              Examples.interleaved Hk Hfin) as (H1 & H2 & _).
  split; [exact Hk|]. split; [exact Hfin|]. split; [exact H1 | exact H2].
Defined.

(** Two threads looking up two different keys, neither registered, get two
    different new objects, each registered under its own key; exactly two
    pipeline caches are created. *)
Theorem concurrent_Lookups_of_two_keys (k1 k2 : string) (this : t) (w : World)
    (sched : list tid) :
  k1 ≠ k2 →
  m_vkCache this !! k1 = None → m_vkCache this !! k2 = None →
  let cfg := run (CallLookup k1) (CallLookup k2) sched (start this w) in
  finished cfg = true →
  ∃ o1 o2, pc1 cfg = Done (ReplyPipeline (Some o1))
           ∧ pc2 cfg = Done (ReplyPipeline (Some o2))
           ∧ o1 ≠ o2
           ∧ m_vkCache (mgr cfg) !! k1 = Some (Some o1)
           ∧ m_vkCache (mgr cfg) !! k2 = Some (Some o2)
           ∧ w_pipelineCaches (world cfg) = w_pipelineCaches w + 2.
Proof.
  intros Hne Hk1 Hk2 cfg Hfin.
  assert (Hag : agrees (CallLookup k1) (CallLookup k2) this w cfg)
    by (apply run_agrees; [done..|apply start_agrees]).
  unfold finished in Hfin.
  destruct (pc1 cfg) as [| | |r1|] eqn:E1; try done.
  destruct (pc2 cfg) as [| | |r2|] eqn:E2; try done.
  destruct (finished_in_some_order _ _ _ _ _ _ _ Hag E1 E2)
    as [(m1 & w1 & Ha & Hb) | (m1 & w1 & Ha & Hb)]; simpl in Ha, Hb.
  - rewrite (Lookup_miss _ _ _ Hk1) in Ha. simpl in Ha. injection Ha as <- <- <-.
    rewrite Lookup_miss in Hb by (simpl; by rewrite lookup_insert_ne).
    simpl in Hb. injection Hb as <- <- <-.
    eexists _, _. split; [done|]. split; [done|]. simpl.
    split; [intros [= H]; lia|].
    split; [rewrite lookup_insert_ne by done; apply lookup_insert_eq|].
    split; [apply lookup_insert_eq | lia].
  - rewrite (Lookup_miss _ _ _ Hk2) in Ha. simpl in Ha. injection Ha as <- <- <-.
    rewrite Lookup_miss in Hb by (simpl; by rewrite lookup_insert_ne).
    simpl in Hb. injection Hb as <- <- <-.
    eexists _, _. split; [done|]. split; [done|]. simpl.
    split; [intros [= H]; lia|].
    split; [apply lookup_insert_eq|].
    split; [rewrite lookup_insert_ne by done; apply lookup_insert_eq | lia].
Qed.

Lemma concurrent_Lookups_of_two_keys_witness :
  "X" ≠ "Y"
  ∧ m_vkCache fresh !! "X" = None ∧ m_vkCache fresh !! "Y" = None
  ∧ finished (run (CallLookup "X") (CallLookup "Y") (Examples.interleaved ++ [T2])
                  (start fresh Examples.quiet)) = true
  ∧ ∃ o1 o2,
      pc1 (run (CallLookup "X") (CallLookup "Y") (Examples.interleaved ++ [T2])
               (start fresh Examples.quiet)) = Done (ReplyPipeline (Some o1))
      ∧ pc2 (run (CallLookup "X") (CallLookup "Y") (Examples.interleaved ++ [T2])
                 (start fresh Examples.quiet)) = Done (ReplyPipeline (Some o2))
      ∧ o1 ≠ o2.
Proof.
  assert (Hne : "X" ≠ "Y") by discriminate.
  assert (H1 : m_vkCache fresh !! "X" = None) by reflexivity.
  assert (H2 : m_vkCache fresh !! "Y" = None) by reflexivity.
  assert (Hfin : finished (run (CallLookup "X") (CallLookup "Y") (Examples.interleaved ++ [T2])
                               (start fresh Examples.quiet)) = true) by reflexivity.
  destruct (concurrent_Lookups_of_two_keys "X" "Y" fresh Examples.quiet
              (Examples.interleaved ++ [T2]) Hne H1 H2 Hfin) as (o1 & o2 & Ha & Hb & Hc & _).
  split; [exact Hne|]. split; [exact H1|]. split; [exact H2|]. split; [exact Hfin|].
  exists o1, o2. split; [exact Ha|]. split; [exact Hb | exact Hc].
Defined.

End ThreadFacts.
